(** * Tower of Hanoi: the game engine (GameState) and the solver (Solver)

    A shallow embedding of [src/js/models/GameState.js] and of the Solver
    service, with the properties of the puzzle state machine, of the
    recursive solution generator and of the timed playback.

    JavaScript numbers that the program uses as integers are modelled as [Z];
    a JavaScript array is a [list] whose last element is the most recently
    pushed one, so a tower is listed from its bottom disk to its top disk. *)

From Stdlib Require Import ZArith Bool Lia.
From stdpp Require Import base tactics option list list_numbers gmap sorting.

Open Scope Z_scope.

(** ** Methods as state transformers that may throw *)

Module Js.

(** The exceptions the modelled code can raise.  [TypeError]: a property of
    [undefined] is read.  [RangeError]: the call stack is exhausted.
    [UndefinedDisk] marks the one place where the model has no value for a
    JavaScript [undefined] stored in a tower ([pop] of an empty array). *)
Inductive error := TypeError | RangeError | UndefinedDisk.

Inductive outcome (A : Type) : Type :=
| Ret (a : A)
| Throw (e : error).
Arguments Ret {A} a.
Arguments Throw {A} e.

(** A method of an object whose fields are [S]: it returns or throws, and
    leaves the object in a new state either way. *)
Definition M (S A : Type) : Type := S -> outcome A * S.

Definition ret {S A} (a : A) : M S A := fun s => (Ret a, s).

Definition throw {S A} (e : error) : M S A := fun s => (Throw e, s).

Definition bind {S A B} (m : M S A) (k : A -> M S B) : M S B :=
  fun s =>
    match m s with
    | (Ret a, s') => k a s'
    | (Throw e, s') => (Throw e, s')
    end.

Definition gets {S A} (f : S -> A) : M S A := fun s => (Ret (f s), s).

Definition modify {S} (f : S -> S) : M S unit := fun s => (Ret tt, f s).

(** [typeof v !== "undefined"] and [a < b] on numbers that may be
    [undefined] (a comparison with [undefined] is false). *)
Definition defined {A} (v : option A) : bool :=
  match v with Some _ => true | None => false end.

Definition less (a b : option Z) : bool :=
  match a, b with
  | Some x, Some y => x <? y
  | _, _ => false
  end.

Definition returned {A} (o : outcome A) : bool :=
  match o with Ret _ => true | Throw _ => false end.

End Js.

Import Js.

Notation "'let!' x ':=' m 'in' k" := (bind m (fun x => k))
  (at level 10, x name, m at level 100, k at level 200, only parsing).
Notation "'do!' m 'in' k" := (bind m (fun _ => k))
  (at level 10, m at level 100, k at level 200, only parsing).

(** ** GameState (src/js/models/GameState.js) *)

Module GameState.

Record t : Type := mk {
  towers : list (list Z);
  numDisks : Z;
  moveCount : Z;
  selectedTowerIndex : option Z;
  autoSolving : bool
}.

(** [arr[i]] for a number [i]: [undefined] unless [i] is an index of [arr]. *)
Definition index {A} (arr : list A) (i : Z) : option A :=
  if 0 <=? i then arr !! Z.to_nat i else None.

(** [arr[i] = x] on an index of [arr] (the code never writes elsewhere). *)
Definition assign {A} (arr : list A) (i : Z) (x : A) : list A :=
  if 0 <=? i then <[Z.to_nat i := x]> arr else arr.

Definition set_towers (ts : list (list Z)) (s : t) : t :=
  mk ts (numDisks s) (moveCount s) (selectedTowerIndex s) (autoSolving s).

(** [constructor(numDisks = 4)] *)
Definition new (n : Z) : t := mk [[]; []; []] n 0 None false.

(** The loop of [init]: [for (size = numDisks; size >= 1; size--) push(size)].
    [fuel] bounds the iterations; [init_loop] gives it what the loop needs. *)
Fixpoint init_loop_fuel (fuel : nat) (size : Z) (tower : list Z) : list Z :=
  match fuel with
  | O => tower
  | S fuel' =>
      if 1 <=? size then init_loop_fuel fuel' (size - 1) (tower ++ [size])
      else tower
  end.

Definition init_loop (size : Z) (tower : list Z) : list Z :=
  init_loop_fuel (Z.to_nat size) size tower.

Definition init (n : Z) : M t unit :=
  modify (fun _ =>
    let nd := Z.max 1 (Z.min 15 n) in
    mk (assign [[]; []; []] 0 (init_loop nd [])) nd 0 None false).

(** [Math.pow(2, numDisks) - 1]; exact for [numDisks >= 0], which [init]
    establishes. *)
Definition getOptimalMoves : M t Z :=
  gets (fun s => 2 ^ numDisks s - 1).

Definition isGameWon : M t bool :=
  let! tw := gets (fun s => index (towers s) 2) in
  match tw with
  | None => throw TypeError
  | Some tower => let! nd := gets numDisks in ret (Z.of_nat (length tower) =? nd)
  end.

Definition getTopDisk (towerIndex : Z) : M t (option Z) :=
  let! tw := gets (fun s => index (towers s) towerIndex) in
  match tw with
  | None => throw TypeError
  | Some tower => ret (if 0 <? Z.of_nat (length tower) then last tower else None)
  end.

(** The three messages of [canMove], in the order of the source. *)
Inductive reason := BadTowerIndex | NoDiskOnSource | LargerOnSmaller.

Record verdict : Type := mkVerdict { valid : bool; error : option reason }.

Definition canMove (sourceIndex targetIndex : Z) : M t verdict :=
  let! sourceTower := gets (fun s => index (towers s) sourceIndex) in
  let! targetTower := gets (fun s => index (towers s) targetIndex) in
  match sourceTower, targetTower with
  | Some sourceTower, Some targetTower =>
      if Z.of_nat (length sourceTower) =? 0
      then ret (mkVerdict false (Some NoDiskOnSource))
      else
        let movingDisk := last sourceTower in
        let targetTopDisk := last targetTower in
        if defined targetTopDisk && less targetTopDisk movingDisk
        then ret (mkVerdict false (Some LargerOnSmaller))
        else ret (mkVerdict true None)
  | _, _ => ret (mkVerdict false (Some BadTowerIndex))
  end.

(** [this.towers[i].pop()] *)
Definition pop (i : Z) : M t Z :=
  let! tw := gets (fun s => index (towers s) i) in
  match tw with
  | None => throw TypeError
  | Some tower =>
      match last tower with
      | None => throw UndefinedDisk
      | Some disk =>
          do! modify (fun s =>
                set_towers (assign (towers s) i (removelast tower)) s) in
          ret disk
      end
  end.

(** [this.towers[i].push(disk)] *)
Definition push (i : Z) (disk : Z) : M t unit :=
  let! tw := gets (fun s => index (towers s) i) in
  match tw with
  | None => throw TypeError
  | Some tower =>
      modify (fun s => set_towers (assign (towers s) i (tower ++ [disk])) s)
  end.

Definition performMove (sourceIndex targetIndex : Z) : M t bool :=
  let! validation := canMove sourceIndex targetIndex in
  if negb (valid validation) then ret false
  else
    let! disk := pop sourceIndex in
    do! push targetIndex disk in
    do! modify (fun s =>
          mk (towers s) (numDisks s) (moveCount s + 1)
             (selectedTowerIndex s) (autoSolving s)) in
    ret true.

Definition selectTower (i : option Z) : M t unit :=
  modify (fun s => mk (towers s) (numDisks s) (moveCount s) i (autoSolving s)).

Definition setAutoSolving (value : bool) : M t unit :=
  modify (fun s =>
    mk (towers s) (numDisks s) (moveCount s) (selectedTowerIndex s) value).

(** The state a method leaves, and what it returned. *)
Definition after {A} (m : M t A) (s : t) : t := snd (m s).
Definition result {A} (m : M t A) (s : t) : outcome A := fst (m s).

(** The moves of a list applied in order; the answers of [performMove]. *)
Fixpoint performMoves (moves : list (Z * Z)) : M t (list bool) :=
  match moves with
  | [] => ret []
  | (from, to) :: rest =>
      let! ok := performMove from to in
      let! oks := performMoves rest in
      ret (ok :: oks)
  end.

(** ** Vocabulary of the properties *)

(** [canMove] as a function of the state: the verdict, the state untouched. *)
Definition verdict_of (s : t) (sourceIndex targetIndex : Z) : verdict :=
  match index (towers s) sourceIndex, index (towers s) targetIndex with
  | Some sourceTower, Some targetTower =>
      if Z.of_nat (length sourceTower) =? 0
      then mkVerdict false (Some NoDiskOnSource)
      else if defined (last targetTower)
                && less (last targetTower) (last sourceTower)
      then mkVerdict false (Some LargerOnSmaller)
      else mkVerdict true None
  | _, _ => mkVerdict false (Some BadTowerIndex)
  end.

(** The towers after the top disk of [src] went onto [dst]. *)
Definition relocated (ts : list (list Z)) (src dst : Z) (rest : list Z)
  (disk : Z) (target : list Z) : list (list Z) :=
  assign (assign ts src rest) dst (target ++ [disk]).

(** The disk on top of tower [i], if [i] is a tower that has one. *)
Definition top_disk (s : t) (i : Z) : option Z :=
  match index (towers s) i with
  | Some tower => last tower
  | None => None
  end.

(** From the bottom up, each disk is strictly smaller than the one below. *)
Fixpoint strictly_decreasing (tower : list Z) : bool :=
  match tower with
  | lower :: ((upper :: _) as above) =>
      (upper <? lower) && strictly_decreasing above
  | _ => true
  end.

(** Three towers, each strictly decreasing, holding the disks 1..numDisks
    once each. *)
Definition well_stacked (s : t) : Prop :=
  length (towers s) = 3%nat /\
  Forall (fun tower => strictly_decreasing tower = true) (towers s) /\
  concat (towers s) ≡ₚ seqZ 1 (numDisks s).

(** The disks [k], ..., 1 from the bottom up. *)
Definition stack (k : nat) : list Z := reverse (seqZ 1 (Z.of_nat k)).

(** Every disk up to [n] may go onto [base]. *)
Definition fits (n : Z) (base : list Z) : Prop :=
  forall top, last base = Some top -> n < top.

(** The start of a game with three disks. *)
Definition start3 : t := after (init 3) (new 4).

(** Scenario A of the specification, before its last move. *)
Definition scenarioA : t :=
  after (do! init 3 in do! performMove 0 2 in performMove 0 1) (new 4).

End GameState.

(** ** Solver (the Solver service) *)

Module Solver.

(** A move [[from, to]]. *)
Definition move : Type := Z * Z.

Record t : Type := mk {
  moves : list move;
  currentMoveIndex : nat;
  timer : option positive
}.

(** [constructor()] *)
Definition new : t := mk [] 0 None.

(** [generateSolution(n, from, to, aux, moves)] acts on the array [moves]
    it is given.  [fuel] is the depth the call stack still allows: a call
    that finds none left raises the engine's [RangeError]. *)
Fixpoint generateSolution (fuel : nat) (n from to aux : Z)
  : M (list move) unit :=
  match fuel with
  | O => throw RangeError
  | S fuel' =>
      if n =? 1 then modify (fun moves => moves ++ [(from, to)])
      else
        do! generateSolution fuel' (n - 1) from aux to in
        do! modify (fun moves => moves ++ [(from, to)]) in
        generateSolution fuel' (n - 1) aux to from
  end.

(** A method of the array [this.moves] run as a method of the solver. *)
Definition on_moves {A} (m : M (list move) A) : M t A :=
  fun sv =>
    let (r, ms) := m (moves sv) in
    (r, mk ms (currentMoveIndex sv) (timer sv)).

Definition prepareSolution (fuel : nat) (numDisks : Z) : M t (list move) :=
  do! modify (fun sv => mk [] (currentMoveIndex sv) (timer sv)) in
  do! modify (fun sv => mk (moves sv) 0 (timer sv)) in
  do! on_moves (generateSolution fuel numDisks 0 2 1) in
  gets moves.

(** [this.moves[this.currentMoveIndex++]] reads the element and advances
    the cursor; destructuring an [undefined] element would throw. *)
Definition getNextMove : M t (option move) :=
  let! i := gets currentMoveIndex in
  let! ms := gets moves in
  if (length ms <=? i)%nat then ret None
  else
    do! modify (fun sv => mk (moves sv) (S i) (timer sv)) in
    match ms !! i with
    | None => throw TypeError
    | Some (from, to) => ret (Some (from, to))
    end.

Definition hasMoreMoves : M t bool :=
  gets (fun sv => (currentMoveIndex sv <? length (moves sv))%nat).

Definition isRunning : M t bool :=
  gets (fun sv => defined (timer sv)).

Definition getTotalMoves : M t nat :=
  gets (fun sv => length (moves sv)).

(** ** Vocabulary of the properties *)

(** What [generateSolution] pushes for [S k] disks. *)
Fixpoint solution (k : nat) (from to aux : Z) : list move :=
  match k with
  | O => [(from, to)]
  | S k' => solution k' from aux to ++ [(from, to)] ++ solution k' aux to from
  end.

End Solver.

(** ** Timed playback: the solver and the host's interval timers

    [setInterval] registers a callback under a fresh handle, a positive
    integer (so [if (this.timer)] asks whether a handle is held);
    [clearInterval] removes it at once; the host runs a tick of a handle
    only while the handle is registered.  The two
    callbacks of [startAutoPlay] are code of the caller: the model records
    that they were called, and assumes they do not call the solver back. *)

Module Playback.

(** The arguments of one [startAutoPlay]: is [onMove] / [onComplete] given. *)
Record callbacks : Type := mkCallbacks { onMove : bool; onComplete : bool }.

(** A call of a callback, with the handle of the interval that made it. *)
Inductive called :=
| OnMove (h : positive) (from to : Z)
| OnComplete (h : positive).

Record world : Type := mkWorld {
  solver : Solver.t;
  intervals : gmap positive callbacks;
  nextHandle : positive;
  calls : list called
}.

Definition set_solver_of (sv : Solver.t) (w : world) : world :=
  mkWorld sv (intervals w) (nextHandle w) (calls w).

Definition record_call (c : called) (w : world) : world :=
  mkWorld (solver w) (intervals w) (nextHandle w) (calls w ++ [c]).

Definition setInterval (cb : callbacks) (w : world) : positive * world :=
  let h := nextHandle w in
  (h, mkWorld (solver w) (<[h := cb]> (intervals w)) (Pos.succ h) (calls w)).

Definition clearInterval (h : positive) (w : world) : world :=
  mkWorld (solver w) (delete h (intervals w)) (nextHandle w) (calls w).

(** [stop()] *)
Definition stop (w : world) : world :=
  let w1 :=
    match Solver.timer (solver w) with
    | Some h =>
        let w' := clearInterval h w in
        set_solver_of
          (Solver.mk (Solver.moves (solver w'))
             (Solver.currentMoveIndex (solver w')) None) w'
    | None => w
    end in
  let w2 :=
    set_solver_of
      (Solver.mk [] (Solver.currentMoveIndex (solver w1))
         (Solver.timer (solver w1))) w1 in
  set_solver_of
    (Solver.mk (Solver.moves (solver w2)) 0 (Solver.timer (solver w2))) w2.

(** [startAutoPlay(onMove, onComplete, delay)]: the delay is not modelled. *)
Definition startAutoPlay (cb : callbacks) (w : world) : world :=
  let (h, w') := setInterval cb w in
  set_solver_of
    (Solver.mk (Solver.moves (solver w'))
       (Solver.currentMoveIndex (solver w')) (Some h)) w'.

(** The arrow function given to [setInterval], run for the interval [h]. *)
Definition tick_body (h : positive) (cb : callbacks) (w : world) : world :=
  match Solver.getNextMove (solver w) with
  | (Throw _, sv) => set_solver_of sv w
  | (Ret None, sv) =>
      let w1 := stop (set_solver_of sv w) in
      if onComplete cb then record_call (OnComplete h) w1 else w1
  | (Ret (Some (from, to)), sv) =>
      let w1 := set_solver_of sv w in
      if onMove cb then record_call (OnMove h from to) w1 else w1
  end.

(** The host fires a tick of [h]: nothing runs unless [h] is registered. *)
Definition tick (h : positive) (w : world) : world :=
  match intervals w !! h with
  | Some cb => tick_body h cb w
  | None => w
  end.

Inductive event :=
| StartAutoPlay (cb : callbacks)
| Stop
| Tick (h : positive).

Definition exec (e : event) (w : world) : world :=
  match e with
  | StartAutoPlay cb => startAutoPlay cb w
  | Stop => stop w
  | Tick h => tick h w
  end.

Definition execs (es : list event) (w : world) : world :=
  foldl (fun w e => exec e w) w es.

(** A world with no interval registered, around a solver that is not
    running: the state after the constructor, or after any [stop()]. *)
Definition idle (sv : Solver.t) (first : positive) : world :=
  mkWorld (Solver.mk (Solver.moves sv) (Solver.currentMoveIndex sv) None)
    ∅ first [].

(** How often [onComplete] was called for the interval [h]. *)
Definition is_completion (h : positive) (c : called) : bool :=
  match c with
  | OnComplete h' => (h' =? h)%positive
  | OnMove _ _ _ => false
  end.

Fixpoint completions (h : positive) (cs : list called) : nat :=
  match cs with
  | [] => O
  | c :: cs' =>
      ((if is_completion h c then 1 else 0) + completions h cs')%nat
  end.

(** [startAutoPlay] is only called while the solver is not running, as
    [GameController.startAutoSolve] does (it calls [stop()] first). *)
Fixpoint starts_when_stopped (es : list event) (w : world) : bool :=
  match es with
  | [] => true
  | e :: es' =>
      match e with
      | StartAutoPlay _ => negb (defined (Solver.timer (solver w)))
      | _ => true
      end && starts_when_stopped es' (exec e w)
  end.

(** ** Vocabulary of the properties *)

(** A [startAutoPlay] given both callbacks. *)
Definition both : callbacks := mkCallbacks true true.

(** A solver holding the solution for one disk, not yet running. *)
Definition ready : world := idle (Solver.mk [(0, 2)] 0 None) 1%positive.

(** The only interval registered is the one the solver holds in [timer];
    it has not completed; no interval has completed twice; handles not yet
    given out have no calls. *)
Definition one_interval (w : world) : Prop :=
  (forall h, is_Some (intervals w !! h) ->
             Solver.timer (solver w) = Some h) /\
  (forall h, Solver.timer (solver w) = Some h ->
             (h < nextHandle w)%positive /\ completions h (calls w) = 0%nat) /\
  (forall h, (completions h (calls w) <= 1)%nat) /\
  (forall h, (nextHandle w <= h)%positive -> completions h (calls w) = 0%nat).

End Playback.

(** ** Counting moves and measuring the way to the goal *)

Module Play.

Import GameState.

(** How many answers of [performMove] are [true]. *)
Fixpoint successes (oks : list bool) : Z :=
  match oks with
  | [] => 0
  | ok :: rest => (if ok then 1 else 0) + successes rest
  end.

(** The tower a disk stands on (tower 2 when it is on neither of the
    first two). *)
Definition peg_of (s : t) (disk : Z) : Z :=
  match towers s with
  | t0 :: t1 :: _ =>
      if bool_decide (disk ∈ t0) then 0
      else if bool_decide (disk ∈ t1) then 1 else 2
  | _ => 2
  end.

(** The other one of the three towers 0, 1, 2. *)
Definition third (a b : Z) : Z := 3 - a - b.

(** The moves still needed to bring the disks 1..k onto [target], when
    disk [x] stands on tower [peg x]: nothing for a disk that is there
    already; otherwise the smaller disks go to the third tower, the disk
    moves, and the 2^(k-1) - 1 moves of the smaller ones follow. *)
Fixpoint distance (peg : Z -> Z) (k : nat) (target : Z) : Z :=
  match k with
  | O => 0
  | S k' =>
      if peg (Z.of_nat (S k')) =? target then distance peg k' target
      else distance peg k' (third (peg (Z.of_nat (S k'))) target)
           + 2 ^ Z.of_nat k'
  end.

(** [getNextMove()] called [k] times in a row; its answers. *)
Fixpoint getNextMoves (k : nat) : M Solver.t (list (option Solver.move)) :=
  match k with
  | O => ret []
  | S k' =>
      let! mv := Solver.getNextMove in
      let! mvs := getNextMoves k' in
      ret (mv :: mvs)
  end.

(** A move between two different towers of the three. *)
Definition proper_move (mv : Solver.move) : Prop :=
  fst mv <> snd mv /\ 0 <= fst mv <= 2 /\ 0 <= snd mv <= 2.

(** The call of [onMove] that hands a move to the caller. *)
Definition move_call (h : positive) (mv : Solver.move) : Playback.called :=
  Playback.OnMove h (fst mv) (snd mv).

(** A playback under way: the interval [h] is the only one registered,
    the solver holds it and has handed out [k] of its moves. *)
Definition playing (moves : list Solver.move) (h : positive) (k : nat)
  (calls : list Playback.called) : Playback.world :=
  Playback.mkWorld (Solver.mk moves k (Some h)) {[h := Playback.both]}
    (Pos.succ h) calls.

(** After the playback of the interval [h]: nothing registered, the solver
    reset. *)
Definition played (h : positive) (calls : list Playback.called)
  : Playback.world :=
  Playback.mkWorld (Solver.mk [] 0 None) ∅ (Pos.succ h) calls.

End Play.

(** ** GameView (src/js/views/GameView.js), as far as the controller sees it

    The page is reduced to what the methods of the view write and read:
    the number in the disk-count field, the state of the solver controls,
    the message with its kind, the two counters and the last rendering. *)

Module View.

(** The messages the controller shows, with what it fills in. *)
Inductive text :=
| Instructions
| NoText
| Rejected (why : option GameState.reason)
| GameWon (moveCount optimal : Z)
| NoDisksHere
| TowerChosen (number : Z)
| ChoiceCancelled
| SolverRunning
| SolverFinished (moveCount optimal : Z)
| SolverStopped.

Inductive kind := Normal | Win | Error.

Record t : Type := mk {
  diskCountInput : option Z;
  solverControls : bool;
  message : text * kind;
  movesShown : Z;
  optimalShown : Z;
  towersShown : list (list Z);
  selectionShown : option Z
}.

Definition setMessage (txt : text) (type : kind) (v : t) : t :=
  mk (diskCountInput v) (solverControls v) (txt, type) (movesShown v)
     (optimalShown v) (towersShown v) (selectionShown v).

Definition updateMoves (moves : Z) (v : t) : t :=
  mk (diskCountInput v) (solverControls v) (message v) moves
     (optimalShown v) (towersShown v) (selectionShown v).

Definition updateOptimalMoves (optimal : Z) (v : t) : t :=
  mk (diskCountInput v) (solverControls v) (message v) (movesShown v)
     optimal (towersShown v) (selectionShown v).

Definition updateUIForSolver (isRunning : bool) (v : t) : t :=
  mk (diskCountInput v) isRunning (message v) (movesShown v)
     (optimalShown v) (towersShown v) (selectionShown v).

Definition render (towers : list (list Z)) (selected : option Z) (v : t) : t :=
  mk (diskCountInput v) (solverControls v) (message v) (movesShown v)
     (optimalShown v) towers selected.

(** [parseInt(input.value, 10)] is [diskCountInput], [None] for [NaN]. *)
Definition getDiskCountValue (v : t) : Z :=
  let value := match diskCountInput v with Some n => n | None => 3 end in
  Z.max 1 (Z.min 15 value).

Definition setDiskCountValue (value : Z) (v : t) : t :=
  mk (Some value) (solverControls v) (message v) (movesShown v)
     (optimalShown v) (towersShown v) (selectionShown v).

End View.

(** ** GameController (src/js/controllers/GameController.js) *)

Module Controller.

(** The controller's model, view and solver; the solver comes with the
    intervals of the host, as in [Playback]. *)
Record t : Type := mk {
  state : GameState.t;
  view : View.t;
  player : Playback.world
}.

Definition on_state {A} (m : M GameState.t A) : M t A :=
  fun c => let (r, s) := m (state c) in (r, mk s (view c) (player c)).

Definition on_solver {A} (m : M Solver.t A) : M t A :=
  fun c =>
    let (r, sv) := m (Playback.solver (player c)) in
    (r, mk (state c) (view c) (Playback.set_solver_of sv (player c))).

Definition on_view (f : View.t -> View.t) : M t unit :=
  modify (fun c => mk (state c) (f (view c)) (player c)).

Definition on_player (f : Playback.world -> Playback.world) : M t unit :=
  modify (fun c => mk (state c) (view c) (f (player c))).

(** The getters of GameState. *)
Definition getTowers : M GameState.t (list (list Z)) := gets GameState.towers.
Definition getMoveCount : M GameState.t Z := gets GameState.moveCount.
Definition getNumDisks : M GameState.t Z := gets GameState.numDisks.
Definition getSelectedTowerIndex : M GameState.t (option Z) :=
  gets GameState.selectedTowerIndex.
Definition isAutoSolving : M GameState.t bool := gets GameState.autoSolving.

Definition when (b : bool) (m : M t unit) : M t unit :=
  if b then m else ret tt.

Definition updateDisplay : M t unit :=
  let! moves := on_state getMoveCount in
  do! on_view (View.updateMoves moves) in
  let! optimal := on_state GameState.getOptimalMoves in
  do! on_view (View.updateOptimalMoves optimal) in
  let! towers := on_state getTowers in
  let! selected := on_state getSelectedTowerIndex in
  on_view (View.render towers selected).

Definition initGame : M t unit :=
  do! on_player Playback.stop in
  do! on_state (GameState.setAutoSolving false) in
  do! on_view (View.updateUIForSolver false) in
  let! numDisks := gets (fun c => View.getDiskCountValue (view c)) in
  do! on_view (View.setDiskCountValue numDisks) in
  do! on_state (GameState.init numDisks) in
  do! updateDisplay in
  on_view (View.setMessage View.Instructions View.Normal).

Definition checkWin : M t unit :=
  let! won := on_state GameState.isGameWon in
  when won
    (let! moveCount := on_state getMoveCount in
     let! optimal := on_state GameState.getOptimalMoves in
     on_view (View.setMessage (View.GameWon moveCount optimal) View.Win)).

(** [performMove(sourceIndex, targetIndex, options)] *)
Definition performMove (sourceIndex targetIndex : Z)
  (fromSolver skipCheckWin skipMessage : bool) : M t bool :=
  let! validation := on_state (GameState.canMove sourceIndex targetIndex) in
  if negb (GameState.valid validation) then
    do! when (negb fromSolver)
          (on_view (View.setMessage
                      (View.Rejected (GameState.error validation))
                      View.Error)) in
    ret false
  else
    do! on_state (GameState.performMove sourceIndex targetIndex) in
    do! updateDisplay in
    do! when (negb skipMessage)
          (on_view (View.setMessage View.NoText View.Normal)) in
    do! when (negb skipCheckWin) checkWin in
    ret true.

Definition handleTowerClick (index : Z) : M t unit :=
  let! auto := on_state isAutoSolving in
  if auto then ret tt
  else
    let! selectedIndex := on_state getSelectedTowerIndex in
    let! towers := on_state getTowers in
    match selectedIndex with
    | None =>
        match GameState.index towers index with
        | None => throw TypeError
        | Some tower =>
            if Z.of_nat (length tower) =? 0 then
              on_view (View.setMessage View.NoDisksHere View.Error)
            else
              do! on_state (GameState.selectTower (Some index)) in
              do! on_view (View.setMessage (View.TowerChosen (index + 1))
                             View.Normal) in
              on_view (View.render towers (Some index))
        end
    | Some selected =>
        if selected =? index then
          do! on_state (GameState.selectTower None) in
          do! on_view (View.setMessage View.ChoiceCancelled View.Normal) in
          on_view (View.render towers None)
        else
          let! moved := performMove selected index false false false in
          do! on_state (GameState.selectTower None) in
          when (negb moved) (on_view (View.render towers None))
    end.

(** The two callbacks [startAutoSolve] gives to [startAutoPlay]. *)
Definition onMove (from to : Z) : M t unit :=
  do! performMove from to true true true in ret tt.

Definition onComplete : M t unit :=
  do! on_state (GameState.setAutoSolving false) in
  do! on_view (View.updateUIForSolver false) in
  do! checkWin in
  let! moveCount := on_state getMoveCount in
  let! optimal := on_state GameState.getOptimalMoves in
  on_view (View.setMessage (View.SolverFinished moveCount optimal) View.Win).

(** [depth] is the call-stack depth [prepareSolution] may use. *)
Definition startAutoSolve (depth : nat) : M t unit :=
  do! initGame in
  let! numDisks := on_state getNumDisks in
  do! on_solver (Solver.prepareSolution depth numDisks) in
  let! total := on_solver Solver.getTotalMoves in
  if (total =? 0)%nat then ret tt
  else
    do! on_state (GameState.setAutoSolving true) in
    do! on_view (View.updateUIForSolver true) in
    do! on_view (View.setMessage View.SolverRunning View.Normal) in
    on_player (Playback.startAutoPlay Playback.both).

Definition stopAutoSolve (manual : bool) : M t unit :=
  do! on_player Playback.stop in
  do! on_state (GameState.setAutoSolving false) in
  do! on_view (View.updateUIForSolver false) in
  when manual (on_view (View.setMessage View.SolverStopped View.Normal)).

(** The click handler of the solver button. *)
Definition solveClick (depth : nat) : M t unit :=
  let! auto := on_state isAutoSolving in
  if auto then stopAutoSolve true else startAutoSolve depth.

(** The arrow function of [startAutoPlay] with the controller's callbacks
    behind [onMove] and [onComplete]; the host runs it only for a
    registered interval. *)
Definition tick (h : positive) : M t unit :=
  let! registered := gets (fun c => Playback.intervals (player c) !! h) in
  match registered with
  | None => ret tt
  | Some cb =>
      let! move := on_solver Solver.getNextMove in
      match move with
      | None =>
          do! on_player Playback.stop in
          when (Playback.onComplete cb) onComplete
      | Some (from, to) => when (Playback.onMove cb) (onMove from to)
      end
  end.

(** What the user and the host can do to the page. *)
Inductive input :=
| TowerClick (index : Z)
| ResetClick
| DiskCountChange (typed : option Z)
| SolveClick
| TimerTick (h : positive).

Definition handle (depth : nat) (i : input) : M t unit :=
  match i with
  | TowerClick index => handleTowerClick index
  | ResetClick => initGame
  | DiskCountChange typed =>
      do! on_view (fun v =>
            View.mk typed (View.solverControls v) (View.message v)
              (View.movesShown v) (View.optimalShown v)
              (View.towersShown v) (View.selectionShown v)) in
      initGame
  | SolveClick => solveClick depth
  | TimerTick h => tick h
  end.

(** An exception ends its handler; the page goes on with the next input. *)
Definition handles (depth : nat) (inputs : list input) (c : t) : t :=
  foldl (fun c i => snd (handle depth i c)) c inputs.

(** [new GameController()] followed by [init()], on a page whose disk
    count field reads [typed] and whose next interval handle is [first]. *)
Definition loaded (typed : option Z) (first : positive) : t :=
  snd (initGame
         (mk (GameState.new 4)
             (View.mk typed false (View.NoText, View.Normal) 0 0 [] None)
             (Playback.idle Solver.new first))).

(** ** Vocabulary of the properties *)

(** The state of a new game with [n] disks. *)
Definition fresh (n : Z) : GameState.t :=
  GameState.mk [reverse (seqZ 1 n); []; []] n 0 None false.

(** The solver with its cursor one further. *)
Definition advanced (p : Playback.world) : Playback.world :=
  Playback.set_solver_of
    (Solver.mk (Solver.moves (Playback.solver p))
       (S (Solver.currentMoveIndex (Playback.solver p)))
       (Solver.timer (Playback.solver p))) p.

(** The view after [updateDisplay] for the state [s]. *)
Definition display (s : GameState.t) (v : View.t) : View.t :=
  View.mk (View.diskCountInput v) (View.solverControls v) (View.message v)
    (GameState.moveCount s) (2 ^ GameState.numDisks s - 1)
    (GameState.towers s) (GameState.selectedTowerIndex s).

(** What [isGameWon] answers where tower 2 exists. *)
Definition won (s : GameState.t) : bool :=
  match GameState.index (GameState.towers s) 2 with
  | Some tower => Z.of_nat (length tower) =? GameState.numDisks s
  | None => false
  end.

(** The view after [checkWin] for the state [s]. *)
Definition announce_win (s : GameState.t) (v : View.t) : View.t :=
  if won s
  then View.setMessage
         (View.GameWon (GameState.moveCount s) (2 ^ GameState.numDisks s - 1))
         View.Win v
  else v.

(** The view after a move that [performMove] made, the state being [s]. *)
Definition view_after_move (skipCheckWin skipMessage : bool)
  (s : GameState.t) (v : View.t) : View.t :=
  let v1 := display s v in
  let v2 :=
    if skipMessage then v1 else View.setMessage View.NoText View.Normal v1 in
  if skipCheckWin then v2 else announce_win s v2.

(** The controller while the solver plays [moves] on a new game with [n]
    disks for the player [p]: [j] moves are made. *)
Definition solving (n : Z) (moves : list Solver.move) (p : Playback.world)
  (j : nat) : t :=
  let s :=
    snd (GameState.performMoves (take j moves)
           (snd (GameState.setAutoSolving true (fresh n)))) in
  mk s
    (display s
       (View.mk (Some n) true (View.SolverRunning, View.Normal) 0
          (2 ^ n - 1) (GameState.towers (fresh n)) None))
    (Playback.mkWorld
       (Solver.mk moves j (Some (Playback.nextHandle p)))
       (<[Playback.nextHandle p := Playback.both]>
          (Playback.intervals (Playback.stop p)))
       (Pos.succ (Playback.nextHandle p)) (Playback.calls p)).

(** The page shows the game: towers, counters, solver controls and disk
    count field agree with the model. *)
Definition view_current (c : t) : Prop :=
  View.towersShown (view c) = GameState.towers (state c) /\
  View.movesShown (view c) = GameState.moveCount (state c) /\
  View.optimalShown (view c) = 2 ^ GameState.numDisks (state c) - 1 /\
  View.solverControls (view c) = GameState.autoSolving (state c) /\
  View.diskCountInput (view c) = Some (GameState.numDisks (state c)).

(** The auto-play flag is set exactly while the solver runs, and then the
    solver's interval, with both callbacks, is the only one registered. *)
Definition solver_exclusive (c : t) : Prop :=
  GameState.autoSolving (state c)
    = defined (Solver.timer (Playback.solver (player c))) /\
  (forall h, is_Some (Playback.intervals (player c) !! h) ->
             Solver.timer (Playback.solver (player c)) = Some h) /\
  (forall h, Solver.timer (Playback.solver (player c)) = Some h ->
             Playback.intervals (player c) !! h = Some Playback.both).

(** A tower is selected only outside auto-play, and it holds a disk. *)
Definition selection_armed (c : t) : Prop :=
  forall i, GameState.selectedTowerIndex (state c) = Some i ->
    GameState.autoSolving (state c) = false /\
    exists rest disk,
      GameState.index (GameState.towers (state c)) i = Some (rest ++ [disk]).

Definition consistent (c : t) : Prop :=
  GameState.well_stacked (state c) /\
  1 <= GameState.numDisks (state c) <= 15 /\
  0 <= GameState.moveCount (state c) /\
  view_current c /\ solver_exclusive c /\ selection_armed c.

End Controller.

(** * Properties of GameState *)

Module GameStateProps.

Import GameState.

(** ** Arrays read and written at a number *)

Lemma index_Some_range {A} (arr : list A) (i : Z) (x : A) :
  index arr i = Some x -> 0 <= i < Z.of_nat (length arr).
Proof.
  unfold index. destruct (Z.leb_spec 0 i) as [Hi|Hi]; [|discriminate].
  intros Hx. apply lookup_lt_Some in Hx. lia.
Qed.

Lemma index_None_range {A} (arr : list A) (i : Z) :
  index arr i = None <-> i < 0 \/ Z.of_nat (length arr) <= i.
Proof.
  unfold index. destruct (Z.leb_spec 0 i) as [Hi|Hi].
  - rewrite lookup_ge_None. lia.
  - split; [lia|reflexivity].
Qed.

Lemma index_assign_eq {A} (arr : list A) (i : Z) (x y : A) :
  index arr i = Some y -> index (assign arr i x) i = Some x.
Proof.
  intros Hy. pose proof (index_Some_range _ _ _ Hy) as Hr.
  unfold index, assign. destruct (Z.leb_spec 0 i); [|lia].
  apply list_lookup_insert_eq. lia.
Qed.

Lemma index_assign_ne {A} (arr : list A) (i j : Z) (x : A) :
  i <> j -> index (assign arr i x) j = index arr j.
Proof.
  intros Hij. unfold index, assign.
  destruct (Z.leb_spec 0 i), (Z.leb_spec 0 j); try reflexivity.
  apply list_lookup_insert_ne. lia.
Qed.

Lemma length_assign {A} (arr : list A) (i : Z) (x : A) :
  length (assign arr i x) = length arr.
Proof. unfold assign. destruct (0 <=? i); [apply length_insert|reflexivity]. Qed.

Lemma assign_assign_eq {A} (arr : list A) (i : Z) (x y : A) :
  assign (assign arr i y) i x = assign arr i x.
Proof.
  unfold assign. destruct (0 <=? i); [apply list_insert_insert_eq|reflexivity].
Qed.

Lemma assign_id {A} (arr : list A) (i : Z) (x : A) :
  index arr i = Some x -> assign arr i x = arr.
Proof.
  unfold index, assign. destruct (0 <=? i); [apply list_insert_id|discriminate].
Qed.

(** ** What a tower's top is *)

Lemma last_length_zero {A} (l : list A) :
  (Z.of_nat (length l) =? 0) = true <-> last l = None.
Proof.
  rewrite last_None, Z.eqb_eq. destruct l; simpl; split; (lia || discriminate || reflexivity).
Qed.

Lemma nonempty_snoc {A} (l : list A) :
  (Z.of_nat (length l) =? 0) = false -> exists rest x, l = rest ++ [x].
Proof.
  intros Hl. destruct (last l) as [x|] eqn:Hlast.
  - apply last_Some in Hlast as [rest ->]. eauto.
  - apply last_length_zero in Hlast. congruence.
Qed.

Lemma canMove_eq (s : t) (src dst : Z) :
  canMove src dst s = (Ret (verdict_of s src dst), s).
Proof.
  unfold canMove, verdict_of, bind, gets, ret.
  destruct (index (towers s) src) as [st|]; [|reflexivity].
  destruct (index (towers s) dst) as [tt'|]; [|reflexivity].
  destruct (Z.of_nat (length st) =? 0); [reflexivity|].
  destruct (defined (last tt') && less (last tt') (last st)); reflexivity.
Qed.

Lemma performMove_invalid (s : t) (src dst : Z) :
  valid (verdict_of s src dst) = false ->
  performMove src dst s = (Ret false, s).
Proof.
  intros Hv. unfold performMove, bind. rewrite canMove_eq, Hv. reflexivity.
Qed.

Lemma valid_source (s : t) (src dst : Z) :
  valid (verdict_of s src dst) = true ->
  exists rest disk target,
    index (towers s) src = Some (rest ++ [disk]) /\
    index (towers s) dst = Some target /\
    (forall top, last target = Some top -> disk <= top).
Proof.
  unfold verdict_of.
  destruct (index (towers s) src) as [st|]; [|discriminate].
  destruct (index (towers s) dst) as [tg|]; [|discriminate].
  destruct (Z.of_nat (length st) =? 0) eqn:Hlen; [discriminate|].
  apply nonempty_snoc in Hlen as (rest & disk & ->).
  rewrite last_snoc.
  destruct (last tg) as [top|] eqn:Htop; simpl.
  - destruct (Z.ltb_spec top disk); [discriminate|]. intros _.
    exists rest, disk, tg. repeat split; try reflexivity.
    intros top' Htop'. assert (top' = top) by congruence. lia.
  - intros _. exists rest, disk, tg. repeat split; try reflexivity.
    intros top' Htop'. congruence.
Qed.

Lemma performMove_valid (s : t) (src dst : Z) :
  valid (verdict_of s src dst) = true ->
  exists rest disk target,
    index (towers s) src = Some (rest ++ [disk]) /\
    index (assign (towers s) src rest) dst = Some target /\
    performMove src dst s =
      (Ret true,
       mk (relocated (towers s) src dst rest disk target)
          (numDisks s) (moveCount s + 1)
          (selectedTowerIndex s) (autoSolving s)).
Proof.
  intros Hv. destruct (valid_source _ _ _ Hv) as (rest & disk & tg & Hs & Hd & _).
  assert (exists target, index (assign (towers s) src rest) dst = Some target)
    as [target Ht].
  { destruct (Z.eq_dec src dst) as [->|Hne].
    - erewrite index_assign_eq; eauto.
    - rewrite index_assign_ne by assumption. eauto. }
  exists rest, disk, target. split; [assumption|]. split; [assumption|].
  unfold performMove, bind. rewrite canMove_eq, Hv. simpl.
  unfold pop, bind, gets. rewrite Hs, last_snoc. simpl.
  unfold push, bind, gets, modify, set_towers. simpl.
  rewrite removelast_last, Ht. reflexivity.
Qed.

(** ** The observers change nothing *)

(** C10: [canMove], [getTopDisk], [isGameWon] and [getOptimalMoves] leave
    the whole state (towers, move count, selection, auto-play flag and disk
    count) as it was, whatever the state and the arguments, also when
    [getTopDisk] or [isGameWon] throws. *)
Theorem observers_leave_state (s : t) (sourceIndex targetIndex towerIndex : Z) :
  after (canMove sourceIndex targetIndex) s = s /\
  after (getTopDisk towerIndex) s = s /\
  after isGameWon s = s /\
  after getOptimalMoves s = s.
Proof.
  unfold after. split; [|split; [|split]].
  - rewrite canMove_eq. reflexivity.
  - unfold getTopDisk, bind, gets.
    destruct (index (towers s) towerIndex); reflexivity.
  - unfold isGameWon, bind, gets.
    destruct (index (towers s) 2); reflexivity.
  - reflexivity.
Qed.

(** ** The verdict of [canMove] *)

Lemma top_disk_Some (s : t) (i disk : Z) :
  top_disk s i = Some disk <->
  exists rest, index (towers s) i = Some (rest ++ [disk]).
Proof.
  unfold top_disk. destruct (index (towers s) i) as [tw|].
  - rewrite last_Some. split; intros [rest H]; exists rest; congruence.
  - split; [discriminate|]. intros [? ?]. discriminate.
Qed.

Lemma verdict_invalid_iff (s : t) (src dst : Z) :
  length (towers s) = 3%nat ->
  valid (verdict_of s src dst) = false <->
    (~ 0 <= src <= 2 \/ ~ 0 <= dst <= 2) \/
    index (towers s) src = Some [] \/
    (exists moving top,
        top_disk s src = Some moving /\ top_disk s dst = Some top /\
        top < moving).
Proof.
  intros Hlen. unfold verdict_of, top_disk.
  destruct (index (towers s) src) as [st|] eqn:Hs.
  2:{ apply index_None_range in Hs. split; [intros _; left; lia|reflexivity]. }
  pose proof (index_Some_range _ _ _ Hs) as Hsr.
  destruct (index (towers s) dst) as [tg|] eqn:Hd.
  2:{ apply index_None_range in Hd. split; [intros _; left; lia|reflexivity]. }
  pose proof (index_Some_range _ _ _ Hd) as Hdr.
  destruct (Z.of_nat (length st) =? 0) eqn:Hz.
  { split; [intros _|reflexivity]. right; left.
    apply last_length_zero, last_None in Hz. congruence. }
  apply nonempty_snoc in Hz as (rest & moving & ->). rewrite last_snoc.
  destruct (last tg) as [top|]; simpl.
  - destruct (Z.ltb_spec top moving); simpl.
    + split; [intros _|reflexivity]. right; right. eauto.
    + split; [discriminate|].
      intros [[?|?]|[Hnil|(m & t' & Hm & Ht & Hlt)]]; try lia.
      * injection Hnil as Hnil. destruct rest; discriminate.
      * injection Hm as <-. injection Ht as <-. lia.
  - split; [discriminate|].
    intros [[?|?]|[Hnil|(m & t' & Hm & Ht & Hlt)]]; try lia.
    + injection Hnil as Hnil. destruct rest; discriminate.
    + discriminate.
Qed.

(** C3: on three towers, [canMove] answers invalid exactly when an index is
    outside 0..2, or the source tower is empty, or the top disk of the
    target is strictly smaller than the top disk of the source; so a move
    of a disk onto an empty tower, and onto a strictly larger disk, is
    valid. *)
Theorem canMove_invalid_exactly (s : t) (src dst : Z) :
  length (towers s) = 3%nat ->
  exists v,
    canMove src dst s = (Ret v, s) /\
    (valid v = false <->
       (~ 0 <= src <= 2 \/ ~ 0 <= dst <= 2) \/
       index (towers s) src = Some [] \/
       (exists moving top,
           top_disk s src = Some moving /\ top_disk s dst = Some top /\
           top < moving)) /\
    (forall moving,
        top_disk s src = Some moving -> index (towers s) dst = Some [] ->
        valid v = true) /\
    (forall moving top,
        top_disk s src = Some moving -> top_disk s dst = Some top ->
        moving < top -> valid v = true).
Proof.
  intros Hlen. exists (verdict_of s src dst).
  split; [apply canMove_eq|].
  pose proof (verdict_invalid_iff s src dst Hlen) as Hiff.
  split; [exact Hiff|].
  split.
  - intros moving Hm Hd. apply not_false_iff_true. intros Hv.
    apply Hiff in Hv as [[Hr|Hr]|[Hnil|(m & t' & Hm' & Ht & Hlt)]].
    + apply top_disk_Some in Hm as [rest Hm].
      apply index_Some_range in Hm. lia.
    + apply index_Some_range in Hd. lia.
    + unfold top_disk in Hm. rewrite Hnil in Hm. discriminate.
    + unfold top_disk in Ht. rewrite Hd in Ht. discriminate.
  - intros moving top Hm Ht Hlt. apply not_false_iff_true. intros Hv.
    apply Hiff in Hv as [[Hr|Hr]|[Hnil|(m & t' & Hm' & Ht' & Hlt')]].
    + apply top_disk_Some in Hm as [rest Hm].
      apply index_Some_range in Hm. lia.
    + apply top_disk_Some in Ht as [rest Ht].
      apply index_Some_range in Ht. lia.
    + unfold top_disk in Hm. rewrite Hnil in Hm. discriminate.
    + assert (m = moving) by congruence. assert (t' = top) by congruence. lia.
Qed.

Lemma canMove_invalid_exactly_witness :
  exists v,
    canMove 0 2 start3 = (Ret v, start3) /\
    (valid v = false <->
       (~ 0 <= 0 <= 2 \/ ~ 0 <= 2 <= 2) \/
       index (towers start3) 0 = Some [] \/
       (exists moving top,
           top_disk start3 0 = Some moving /\ top_disk start3 2 = Some top /\
           top < moving)) /\
    (forall moving,
        top_disk start3 0 = Some moving -> index (towers start3) 2 = Some [] ->
        valid v = true) /\
    (forall moving top,
        top_disk start3 0 = Some moving -> top_disk start3 2 = Some top ->
        moving < top -> valid v = true).
Proof. apply (canMove_invalid_exactly start3 0 2). reflexivity. Defined.

(** C8, as the code has it: a move from a tower onto itself is rejected
    exactly when that tower is empty; from a tower with a disk, [canMove]
    accepts it (the same-tower click is handled before [canMove] is asked,
    in [GameController.handleTowerClick]). *)
Theorem canMove_same_tower (s : t) (i : Z) :
  length (towers s) = 3%nat -> 0 <= i <= 2 ->
  exists v,
    canMove i i s = (Ret v, s) /\
    (valid v = false <-> index (towers s) i = Some []).
Proof.
  intros Hlen Hi. exists (verdict_of s i i). split; [apply canMove_eq|].
  rewrite (verdict_invalid_iff s i i Hlen). split.
  - intros [[?|?]|[Hnil|(m & t' & Hm & Ht & Hlt)]]; try lia; try assumption.
    assert (m = t') by congruence. lia.
  - intros Hnil. right; left. assumption.
Qed.

Lemma canMove_same_tower_witness :
  exists v,
    canMove 0 0 start3 = (Ret v, start3) /\
    (valid v = false <-> index (towers start3) 0 = Some []).
Proof. apply (canMove_same_tower start3 0); [reflexivity|lia]. Defined.

(** C8 fails as stated: at the start of a game with three disks,
    [canMove(0, 0)] answers valid. *)
Lemma canMove_same_tower_accepted :
  canMove 0 0 start3 = (Ret (mkVerdict true None), start3).
Proof. reflexivity. Qed.

(** ** [performMove] *)

Lemma relocated_target (ts : list (list Z)) (src dst : Z) rest disk target :
  index (assign ts src rest) dst = Some target ->
  index (relocated ts src dst rest disk target) dst = Some (target ++ [disk]).
Proof. intros Ht. unfold relocated. eapply index_assign_eq, Ht. Qed.

Lemma relocated_source (ts : list (list Z)) (src dst : Z) rest disk target x :
  index ts src = Some x -> src <> dst ->
  index (relocated ts src dst rest disk target) src = Some rest.
Proof.
  intros Hs Hne. unfold relocated.
  rewrite index_assign_ne by congruence. eapply index_assign_eq, Hs.
Qed.

Lemma relocated_other (ts : list (list Z)) (src dst k : Z) rest disk target :
  k <> src -> k <> dst ->
  index (relocated ts src dst rest disk target) k = index ts k.
Proof.
  intros Hs Hd. unfold relocated. rewrite !index_assign_ne by congruence.
  reflexivity.
Qed.

Lemma relocated_same (ts : list (list Z)) (i : Z) rest disk target :
  index ts i = Some (rest ++ [disk]) ->
  index (assign ts i rest) i = Some target ->
  relocated ts i i rest disk target = ts.
Proof.
  intros Hs Ht. erewrite index_assign_eq in Ht by eassumption.
  injection Ht as <-. unfold relocated.
  rewrite assign_assign_eq. apply assign_id, Hs.
Qed.

(** C4: [performMove] asks [canMove] again.  On an invalid verdict it
    returns [false] and the state is the one it was given; on a valid one
    it takes the top disk off the source tower, puts it on top of the
    target tower, adds one to the move count, touches nothing else and
    returns [true].  It returns in both cases: it never throws. *)
Theorem performMove_revalidates (s : t) (src dst : Z) :
  exists v,
    canMove src dst s = (Ret v, s) /\
    (valid v = false -> performMove src dst s = (Ret false, s)) /\
    (valid v = true ->
     exists rest disk target s',
       performMove src dst s = (Ret true, s') /\
       index (towers s) src = Some (rest ++ [disk]) /\
       index (assign (towers s) src rest) dst = Some target /\
       (src <> dst -> index (towers s) dst = Some target) /\
       towers s' = relocated (towers s) src dst rest disk target /\
       index (towers s') dst = Some (target ++ [disk]) /\
       (src <> dst -> index (towers s') src = Some rest) /\
       (forall k, k <> src -> k <> dst ->
                  index (towers s') k = index (towers s) k) /\
       length (towers s') = length (towers s) /\
       moveCount s' = moveCount s + 1 /\
       numDisks s' = numDisks s /\
       selectedTowerIndex s' = selectedTowerIndex s /\
       autoSolving s' = autoSolving s) /\
    returned (result (performMove src dst) s) = true.
Proof.
  exists (verdict_of s src dst). split; [apply canMove_eq|].
  split; [apply performMove_invalid|]. split.
  - intros Hv.
    destruct (performMove_valid s src dst Hv)
      as (rest & disk & target & Hs & Ht & Hp).
    eexists rest, disk, target, _. split; [exact Hp|]. simpl.
    split; [exact Hs|]. split; [exact Ht|]. split.
    { intros Hne. rewrite index_assign_ne in Ht by assumption. exact Ht. }
    split; [reflexivity|]. split; [apply relocated_target, Ht|]. split.
    { intros Hne. eapply relocated_source; eassumption. }
    split; [intros k Hk1 Hk2; apply relocated_other; assumption|].
    split; [unfold relocated; rewrite !length_assign; reflexivity|].
    repeat split.
  - unfold result. destruct (valid (verdict_of s src dst)) eqn:Hv.
    + destruct (performMove_valid s src dst Hv) as (? & ? & ? & _ & _ & ->).
      reflexivity.
    + rewrite performMove_invalid by assumption. reflexivity.
Qed.

(** ** Scenario A of the specification *)

(** C7, as the code has it: after [init(3)], [performMove(0, 2)] and
    [performMove(0, 1)] the towers are [[3], [2], [1]] with two moves
    counted, and [performMove(2, 1)] is accepted: [canMove] answers valid,
    disk 1 goes onto disk 2, the move count becomes 3, [true] is returned. *)
Theorem scenarioA_third_move (s0 : t) :
  after (init 3) s0 = mk [[3; 2; 1]; []; []] 3 0 None false /\
  after (do! init 3 in performMove 0 2) s0 =
    mk [[3; 2]; []; [1]] 3 1 None false /\
  after (do! init 3 in do! performMove 0 2 in performMove 0 1) s0 =
    mk [[3]; [2]; [1]] 3 2 None false /\
  canMove 2 1 (mk [[3]; [2]; [1]] 3 2 None false) =
    (Ret (mkVerdict true None), mk [[3]; [2]; [1]] 3 2 None false) /\
  performMove 2 1 (mk [[3]; [2]; [1]] 3 2 None false) =
    (Ret true, mk [[3]; [2; 1]; []] 3 3 None false).
Proof. repeat split. Qed.

(** C7 fails as stated: in that state [performMove(2, 1)] is not rejected,
    it returns [true] and moves the disk. *)
Lemma scenarioA_third_move_accepted :
  result (canMove 2 1) scenarioA = Ret (mkVerdict true None) /\
  result (performMove 2 1) scenarioA = Ret true /\
  towers (after (performMove 2 1) scenarioA) = [[3]; [2; 1]; []].
Proof. repeat split. Qed.

(** ** [init] *)

Lemma reverse_seqZ_S (i : nat) :
  reverse (seqZ 1 (Z.of_nat (S i))) =
  Z.of_nat (S i) :: reverse (seqZ 1 (Z.of_nat i)).
Proof.
  rewrite seqZ_S, reverse_snoc. f_equal. lia.
Qed.

(** The loop leaves by its test, not by want of fuel. *)
Lemma init_loop_fuel_enough (fuel : nat) (size : Z) (tower : list Z) :
  0 <= size -> (Z.to_nat size <= fuel)%nat ->
  init_loop_fuel fuel size tower = tower ++ reverse (seqZ 1 size).
Proof.
  revert size tower. induction fuel as [|fuel IH]; intros size tower Hs Hf.
  - assert (size = 0) as -> by lia. simpl. rewrite app_nil_r. reflexivity.
  - simpl. destruct (Z.leb_spec 1 size) as [H1|H1].
    + rewrite IH by lia.
      replace size with (Z.of_nat (S (Z.to_nat (size - 1)))) at 3 by lia.
      rewrite reverse_seqZ_S, <- app_assoc. simpl.
      repeat f_equal; lia.
    + assert (size = 0) as -> by lia. simpl. rewrite app_nil_r. reflexivity.
Qed.

Lemma init_eq (d : Z) (s : t) :
  init d s =
  (Ret tt,
   mk [reverse (seqZ 1 (Z.max 1 (Z.min 15 d))); []; []]
      (Z.max 1 (Z.min 15 d)) 0 None false).
Proof.
  unfold init, modify, init_loop. rewrite init_loop_fuel_enough by lia.
  reflexivity.
Qed.

Lemma descending_lookup (n : Z) (k : nat) :
  Z.of_nat k < n -> reverse (seqZ 1 n) !! k = Some (n - Z.of_nat k).
Proof.
  intros Hk. rewrite reverse_lookup by (rewrite length_seqZ; lia).
  rewrite length_seqZ, lookup_seqZ_lt by lia. f_equal. lia.
Qed.

(** C6: for every integer [d], [init(d)] returns (it rejects nothing) and
    leaves the disk count clamped into 1..15 ([0] gives 1, [20] gives 15),
    tower 0 holding the disks count, count - 1, ..., 1 from the bottom up,
    towers 1 and 2 empty, the move count 0, no selection and the auto-play
    flag off. *)
Theorem init_clamps_and_stacks (d : Z) (s : t) :
  exists nd tower0,
    init d s = (Ret tt, mk [tower0; []; []] nd 0 None false) /\
    nd = Z.max 1 (Z.min 15 d) /\
    1 <= nd <= 15 /\
    (1 <= d <= 15 -> nd = d) /\ (d < 1 -> nd = 1) /\ (15 < d -> nd = 15) /\
    length tower0 = Z.to_nat nd /\
    (forall k : nat,
        Z.of_nat k < nd -> tower0 !! k = Some (nd - Z.of_nat k)) /\
    numDisks (after (init 0) s) = 1 /\
    numDisks (after (init 20) s) = 15.
Proof.
  exists (Z.max 1 (Z.min 15 d)), (reverse (seqZ 1 (Z.max 1 (Z.min 15 d)))).
  split; [apply init_eq|]. split; [reflexivity|].
  split; [lia|]. split; [lia|]. split; [lia|]. split; [lia|].
  split; [rewrite length_reverse, length_seqZ; reflexivity|].
  split; [intros k Hk; apply descending_lookup, Hk|].
  split; reflexivity.
Qed.

(** ** The towers stay well stacked *)

Lemma strictly_decreasing_snoc (tower : list Z) (disk : Z) :
  strictly_decreasing (tower ++ [disk]) =
  strictly_decreasing tower &&
  match last tower with Some top => disk <? top | None => true end.
Proof.
  induction tower as [|a [|b r] IH]; simpl in *.
  - reflexivity.
  - rewrite andb_true_r. reflexivity.
  - rewrite IH, andb_assoc. reflexivity.
Qed.

Lemma strictly_decreasing_adjacent (tower : list Z) :
  strictly_decreasing tower = true <->
  forall (i : nat) lower upper,
    tower !! i = Some lower -> tower !! S i = Some upper -> upper < lower.
Proof.
  induction tower as [|a [|b r] IH].
  - split; [intros _ i ? ? H|reflexivity]. discriminate.
  - split; [intros _ [|i] ? ? H1 H2|reflexivity]; discriminate.
  - change (strictly_decreasing (a :: b :: r))
      with ((b <? a) && strictly_decreasing (b :: r)).
    rewrite andb_true_iff, IH, Z.ltb_lt. split.
    + intros [Hba Hr] [|i] lower upper H1 H2.
      * injection H1 as <-. injection H2 as <-. assumption.
      * apply (Hr i); assumption.
    + intros H. split.
      * apply (H 0%nat); reflexivity.
      * intros i lower upper H1 H2. apply (H (S i)); assumption.
Qed.

Lemma concat_pop (ts : list (list Z)) (i : Z) (rest : list Z) (disk : Z) :
  index ts i = Some (rest ++ [disk]) ->
  concat ts ≡ₚ disk :: concat (assign ts i rest).
Proof.
  unfold index, assign. destruct (0 <=? i); [|discriminate].
  generalize (Z.to_nat i) as n. clear i.
  induction ts as [|tw ts IH]; intros [|n] H; try discriminate; simpl in *.
  - injection H as ->. rewrite <- app_assoc. simpl.
    symmetry. apply Permutation_middle.
  - rewrite (IH n H). symmetry. apply Permutation_middle.
Qed.

Lemma concat_push (ts : list (list Z)) (j : Z) (target : list Z) (disk : Z) :
  index ts j = Some target ->
  concat (assign ts j (target ++ [disk])) ≡ₚ disk :: concat ts.
Proof.
  unfold index, assign. destruct (0 <=? j); [|discriminate].
  generalize (Z.to_nat j) as n. clear j.
  induction ts as [|tw ts IH]; intros [|n] H; try discriminate; simpl in *.
  - injection H as ->. rewrite <- app_assoc. simpl.
    symmetry. apply Permutation_middle.
  - rewrite (IH n H). symmetry. apply Permutation_middle.
Qed.

Lemma elem_of_concat_index (ts : list (list Z)) (i : Z) tower (x : Z) :
  index ts i = Some tower -> x ∈ tower -> x ∈ concat ts.
Proof.
  unfold index. destruct (0 <=? i); [|discriminate].
  generalize (Z.to_nat i) as n. clear i.
  induction ts as [|tw ts IH]; intros [|n] H Hx; try discriminate; simpl in *.
  - injection H as ->. apply elem_of_app. left. assumption.
  - apply elem_of_app. right. eapply IH; eassumption.
Qed.

Lemma Forall_assign {A} (P : A -> Prop) (arr : list A) (i : Z) (x : A) :
  Forall P arr -> P x -> Forall P (assign arr i x).
Proof.
  intros Ha Hx. unfold assign. destruct (0 <=? i); [|assumption].
  apply Forall_insert; assumption.
Qed.

Lemma Forall_index {A} (P : A -> Prop) (arr : list A) (i : Z) (x : A) :
  Forall P arr -> index arr i = Some x -> P x.
Proof.
  unfold index. destruct (0 <=? i); [|discriminate].
  intros Ha Hx. eapply Forall_lookup_1; eassumption.
Qed.

Lemma well_stacked_init (d : Z) (s : t) : well_stacked (after (init d) s).
Proof.
  unfold after. rewrite init_eq. simpl. split; [reflexivity|]. split.
  - repeat constructor.
    generalize (Z.max 1 (Z.min 15 d)) as n. intros n.
    apply strictly_decreasing_adjacent. intros i lower upper H1 H2.
    destruct (Z.lt_ge_cases (Z.of_nat (S i)) n) as [Hi|Hi].
    + rewrite descending_lookup in H1, H2 by lia.
      injection H1 as <-. injection H2 as <-. lia.
    + apply lookup_lt_Some in H2.
      rewrite length_reverse, length_seqZ in H2. lia.
  - simpl. rewrite app_nil_r. apply reverse_Permutation.
Qed.

(** The top of the target is never the disk that moves, when the towers
    hold each disk once. *)
Lemma moved_disk_fits (s : t) (src dst : Z) rest disk target :
  well_stacked s ->
  index (towers s) src = Some (rest ++ [disk]) ->
  index (assign (towers s) src rest) dst = Some target ->
  (src <> dst -> forall top, last target = Some top -> disk <= top) ->
  strictly_decreasing (target ++ [disk]) = true.
Proof.
  intros (Hlen & Hdec & Hperm) Hs Ht Hle.
  destruct (Z.eq_dec src dst) as [<-|Hne].
  - erewrite index_assign_eq in Ht by eassumption. injection Ht as <-.
    eapply (Forall_index _ _ _ _ Hdec), Hs.
  - rewrite strictly_decreasing_snoc. apply andb_true_iff. split.
    + rewrite index_assign_ne in Ht by assumption.
      eapply (Forall_index _ _ _ _ Hdec), Ht.
    + destruct (last target) as [top|] eqn:Htop; [|reflexivity].
      apply Z.ltb_lt. specialize (Hle Hne top eq_refl).
      assert (disk <> top); [|lia].
      intros <-.
      assert (NoDup (disk :: concat (assign (towers s) src rest))) as Hnd.
      { rewrite <- (concat_pop _ _ _ _ Hs), Hperm. apply NoDup_seqZ. }
      apply NoDup_cons in Hnd as [Hnotin _]. apply Hnotin.
      eapply elem_of_concat_index; [exact Ht|].
      apply last_Some_elem_of, Htop.
Qed.

Lemma performMove_keeps_well_stacked (s : t) (src dst : Z) :
  well_stacked s -> well_stacked (after (performMove src dst) s).
Proof.
  intros Hws. unfold after.
  destruct (valid (verdict_of s src dst)) eqn:Hv.
  2:{ rewrite performMove_invalid by assumption. exact Hws. }
  destruct (valid_source _ _ _ Hv) as (rest0 & disk0 & tg0 & Hs0 & Hd0 & Hle).
  destruct (performMove_valid s src dst Hv)
    as (rest & disk & target & Hs & Ht & ->).
  rewrite Hs in Hs0. injection Hs0 as Hs0.
  apply app_inj_tail in Hs0 as [<- <-].
  assert (strictly_decreasing (target ++ [disk]) = true) as Hfit.
  { eapply moved_disk_fits; try eassumption.
    intros Hne. rewrite index_assign_ne in Ht by assumption.
    assert (tg0 = target) as -> by congruence. exact Hle. }
  destruct Hws as (Hlen & Hdec & Hperm). unfold well_stacked, relocated. simpl.
  split; [rewrite !length_assign; exact Hlen|]. split.
  - apply Forall_assign; [apply Forall_assign; [exact Hdec|]|exact Hfit].
    pose proof (Forall_index _ _ _ _ Hdec Hs) as Hsd. simpl in Hsd.
    rewrite strictly_decreasing_snoc in Hsd.
    apply andb_true_iff in Hsd as [Hsd _]. exact Hsd.
  - rewrite (concat_push _ _ _ _ Ht), <- (concat_pop _ _ _ _ Hs). exact Hperm.
Qed.

Lemma performMove_keeps_numDisks (s : t) (src dst : Z) :
  numDisks (after (performMove src dst) s) = numDisks s.
Proof.
  unfold after. destruct (valid (verdict_of s src dst)) eqn:Hv.
  - destruct (performMove_valid s src dst Hv) as (? & ? & ? & _ & _ & ->).
    reflexivity.
  - rewrite performMove_invalid by assumption. reflexivity.
Qed.

Lemma performMove_returns (s : t) (src dst : Z) :
  exists ok, performMove src dst s = (Ret ok, after (performMove src dst) s).
Proof.
  unfold after. destruct (valid (verdict_of s src dst)) eqn:Hv.
  - destruct (performMove_valid s src dst Hv) as (? & ? & ? & _ & _ & ->).
    eauto.
  - rewrite performMove_invalid by assumption. eauto.
Qed.

Lemma performMoves_cons (from to : Z) (rest : list (Z * Z)) (s : t) :
  after (performMoves ((from, to) :: rest)) s =
  after (performMoves rest) (after (performMove from to) s).
Proof.
  pose proof (performMove_returns s from to) as [ok Hok].
  unfold after. simpl. unfold bind at 1.
  destruct (performMove from to s) as [[ok'|e] s1]; [|discriminate].
  simpl. unfold bind. destruct (performMoves rest s1) as [[oks|e] s']; reflexivity.
Qed.

Lemma performMoves_keep_well_stacked (moves : list (Z * Z)) (s : t) :
  well_stacked s ->
  well_stacked (after (performMoves moves) s) /\
  numDisks (after (performMoves moves) s) = numDisks s.
Proof.
  revert s. induction moves as [|[from to] rest IH]; intros s Hws.
  - split; [exact Hws|reflexivity].
  - rewrite performMoves_cons.
    destruct (IH _ (performMove_keeps_well_stacked s from to Hws)) as [H1 H2].
    split; [exact H1|]. rewrite H2. apply performMove_keeps_numDisks.
Qed.

(** C2: after [init(d)] and any calls of [performMove], there are three
    towers, each strictly decreasing from bottom to top, that hold the
    disks 1..numDisks once each (numDisks being [d] clamped into 1..15);
    and a [performMove] that succeeds there takes the top disk of its
    source tower, and nothing else, to the top of its target tower. *)
Theorem moves_keep_towers_well_stacked
  (d : Z) (s0 : t) (moves : list (Z * Z)) :
  let s := after (performMoves moves) (after (init d) s0) in
  numDisks s = Z.max 1 (Z.min 15 d) /\
  length (towers s) = 3%nat /\
  (forall tower, tower ∈ towers s ->
     strictly_decreasing tower = true /\
     forall (i : nat) lower upper,
       tower !! i = Some lower -> tower !! S i = Some upper ->
       upper < lower) /\
  concat (towers s) ≡ₚ seqZ 1 (numDisks s) /\
  (forall src dst,
     result (performMove src dst) s = Ret true ->
     exists rest disk target,
       index (towers s) src = Some (rest ++ [disk]) /\
       index (assign (towers s) src rest) dst = Some target /\
       towers (after (performMove src dst) s) =
         relocated (towers s) src dst rest disk target /\
       (src = dst -> towers (after (performMove src dst) s) = towers s) /\
       (src <> dst ->
          index (towers s) dst = Some target /\
          index (towers (after (performMove src dst) s)) src = Some rest /\
          index (towers (after (performMove src dst) s)) dst =
            Some (target ++ [disk]) /\
          forall k, k <> src -> k <> dst ->
            index (towers (after (performMove src dst) s)) k =
            index (towers s) k)).
Proof.
  intros s.
  destruct (performMoves_keep_well_stacked moves _ (well_stacked_init d s0))
    as [(Hlen & Hdec & Hperm) Hnum]. fold s in Hlen, Hdec, Hperm, Hnum.
  split. { rewrite Hnum. unfold after. rewrite init_eq. reflexivity. }
  split; [exact Hlen|]. split.
  { intros tower Hin. rewrite Forall_forall in Hdec.
    pose proof (Hdec tower Hin) as Hsd. split; [exact Hsd|].
    apply strictly_decreasing_adjacent, Hsd. }
  split; [exact Hperm|].
  intros src dst Hok. unfold result, after in *.
  destruct (valid (verdict_of s src dst)) eqn:Hv.
  2:{ rewrite performMove_invalid in Hok by assumption. discriminate. }
  destruct (performMove_valid s src dst Hv)
    as (rest & disk & target & Hs & Ht & Hp).
  rewrite Hp. simpl. exists rest, disk, target.
  split; [exact Hs|]. split; [exact Ht|]. split; [reflexivity|]. split.
  - intros <-. eapply relocated_same; eassumption.
  - intros Hne. split.
    { rewrite index_assign_ne in Ht by assumption. exact Ht. }
    split; [eapply relocated_source; eassumption|].
    split; [apply relocated_target, Ht|].
    intros k Hk1 Hk2. apply relocated_other; assumption.
Qed.

End GameStateProps.

(** * Properties of the solution generator *)

Module SolverProps.

Import GameState GameStateProps.

(** ** Without a base case below 1 *)

Lemma generateSolution_below_one (fuel : nat) (n from to aux : Z)
  (moves : list Solver.move) :
  n <= 0 ->
  Solver.generateSolution fuel n from to aux moves = (Throw RangeError, moves).
Proof.
  revert n from to aux moves.
  induction fuel as [|fuel IH]; intros n from to aux moves Hn; [reflexivity|].
  simpl. destruct (Z.eqb_spec n 1) as [->|_]; [lia|].
  unfold bind at 1. rewrite IH by lia. reflexivity.
Qed.

(** C5, at the failing input: [prepareSolution(0)] never returns a list.
    With no base case at 0 the recursion goes on to -1, -2, ... until the
    call stack is exhausted, whatever depth the stack allows; no move has
    been pushed by then. *)
Theorem prepareSolution_zero_overflows (fuel : nat) (sv : Solver.t) :
  Solver.prepareSolution fuel 0 sv =
  (Throw RangeError, Solver.mk [] 0 (Solver.timer sv)).
Proof.
  unfold Solver.prepareSolution, Solver.on_moves, bind, modify. simpl.
  rewrite generateSolution_below_one by lia. reflexivity.
Qed.

(** ** The moves generated for one disk or more *)

Lemma generateSolution_enough (k fuel : nat) (from to aux : Z)
  (moves : list Solver.move) :
  (S k <= fuel)%nat ->
  Solver.generateSolution fuel (Z.of_nat (S k)) from to aux moves =
  (Ret tt, moves ++ Solver.solution k from to aux).
Proof.
  revert fuel from to aux moves.
  induction k as [|k IH]; intros [|fuel] from to aux moves Hf; try lia.
  - reflexivity.
  - cbn [Solver.generateSolution].
    destruct (Z.eqb_spec (Z.of_nat (S (S k))) 1) as [H1|_]; [lia|].
    replace (Z.of_nat (S (S k)) - 1) with (Z.of_nat (S k)) by lia.
    unfold bind at 1. rewrite IH by lia.
    unfold bind at 1, modify at 1. rewrite IH by lia.
    simpl. rewrite <- !app_assoc. reflexivity.
Qed.

Lemma solution_length (k : nat) (from to aux : Z) :
  Z.of_nat (length (Solver.solution k from to aux)) = 2 ^ Z.of_nat (S k) - 1.
Proof.
  revert from to aux. induction k as [|k IH]; intros from to aux.
  - reflexivity.
  - cbn [Solver.solution]. rewrite !length_app, !Nat2Z.inj_add, !IH. simpl length.
    replace (Z.of_nat (S (S k))) with (Z.of_nat (S k) + 1) by lia.
    rewrite Z.pow_add_r by lia. lia.
Qed.

Lemma prepareSolution_enough (k fuel : nat) (sv : Solver.t) :
  (S k <= fuel)%nat ->
  Solver.prepareSolution fuel (Z.of_nat (S k)) sv =
  (Ret (Solver.solution k 0 2 1),
   Solver.mk (Solver.solution k 0 2 1) 0 (Solver.timer sv)).
Proof.
  intros Hf. unfold Solver.prepareSolution, Solver.on_moves, bind, modify.
  simpl. rewrite generateSolution_enough by assumption. reflexivity.
Qed.

(** ** Playing the generated moves *)

Lemma performMove_onto (s : t) (src dst : Z) rest disk target :
  index (towers s) src = Some (rest ++ [disk]) ->
  index (towers s) dst = Some target ->
  src <> dst ->
  (forall top, last target = Some top -> disk < top) ->
  performMove src dst s =
  (Ret true,
   mk (relocated (towers s) src dst rest disk target)
      (numDisks s) (moveCount s + 1) (selectedTowerIndex s) (autoSolving s)).
Proof.
  intros Hs Hd Hne Hfit.
  assert (valid (verdict_of s src dst) = true) as Hv.
  { unfold verdict_of. rewrite Hs, Hd, length_app, last_snoc. simpl.
    destruct (Z.eqb_spec (Z.of_nat (length rest + 1)) 0) as [H0|_]; [lia|].
    destruct (last target) as [top|]; [|reflexivity]. simpl.
    specialize (Hfit top eq_refl).
    destruct (Z.ltb_spec top disk); [lia|reflexivity]. }
  destruct (performMove_valid s src dst Hv)
    as (rest' & disk' & target' & Hs' & Ht' & ->).
  rewrite Hs in Hs'. injection Hs' as Hs'.
  apply app_inj_tail in Hs' as [<- <-].
  rewrite index_assign_ne, Hd in Ht' by assumption. injection Ht' as <-.
  reflexivity.
Qed.

Lemma performMoves_app (l1 l2 : list (Z * Z)) (s s1 s2 : t) oks1 oks2 :
  performMoves l1 s = (Ret oks1, s1) ->
  performMoves l2 s1 = (Ret oks2, s2) ->
  performMoves (l1 ++ l2) s = (Ret (oks1 ++ oks2), s2).
Proof.
  revert s oks1.
  induction l1 as [|[from to] l1 IH]; intros s oks1 H1 H2; simpl in *.
  - injection H1 as <- <-. exact H2.
  - unfold bind in *. destruct (performMove from to s) as [[ok|e] s'];
      [|discriminate].
    destruct (performMoves l1 s') as [[oks|e] s''] eqn:Hl1; [|discriminate].
    injection H1 as <- <-. rewrite (IH s' oks Hl1 H2). reflexivity.
Qed.

Lemma stack_S (k : nat) : stack (S k) = Z.of_nat (S k) :: stack k.
Proof. apply reverse_seqZ_S. Qed.

Lemma fits_less (n m : Z) (base : list Z) : m <= n -> fits n base -> fits m base.
Proof. intros Hm Hf top Htop. specialize (Hf top Htop). lia. Qed.

Lemma fits_snoc (n disk : Z) (base : list Z) : n < disk -> fits n (base ++ [disk]).
Proof. intros Hn top Htop. rewrite last_snoc in Htop. injection Htop as <-. exact Hn. Qed.

(** The moves for [S k] disks take the [S k] top disks of [from] to [to],
    every one of them accepted, and leave the rest where it was. *)
Lemma solution_plays (k : nat) :
  forall (from to aux : Z) (s : t) (bf bt ba : list Z),
    from <> to -> from <> aux -> to <> aux ->
    index (towers s) from = Some (bf ++ stack (S k)) ->
    index (towers s) to = Some bt ->
    index (towers s) aux = Some ba ->
    fits (Z.of_nat (S k)) bf -> fits (Z.of_nat (S k)) bt ->
    fits (Z.of_nat (S k)) ba ->
    exists s',
      performMoves (Solver.solution k from to aux) s =
        (Ret (repeat true (length (Solver.solution k from to aux))), s') /\
      index (towers s') from = Some bf /\
      index (towers s') to = Some (bt ++ stack (S k)) /\
      index (towers s') aux = Some ba /\
      numDisks s' = numDisks s.
Proof.
  induction k as [|k IH];
    intros from to aux s bf bt ba Hft Hfa Hta Hf Ht Ha Fbf Fbt Fba.
  - eexists. cbn [Solver.solution performMoves]. unfold bind.
    rewrite (performMove_onto s from to bf 1 bt) by assumption.
    unfold ret. split; [reflexivity|]. cbn [towers numDisks]. split.
    { eapply relocated_source; eassumption. }
    split. { apply relocated_target. rewrite index_assign_ne; assumption. }
    split; [|reflexivity].
    rewrite relocated_other by congruence. assumption.
  - rewrite stack_S in Hf.
    change (Z.of_nat (S (S k)) :: stack (S k))
      with ([Z.of_nat (S (S k))] ++ stack (S k)) in Hf.
    rewrite app_assoc in Hf.
    destruct (IH from aux to s (bf ++ [Z.of_nat (S (S k))]) ba bt)
      as (s1 & Hp1 & Hf1 & Ha1 & Ht1 & Hn1); try assumption; try congruence.
    { apply fits_snoc. lia. }
    { eapply fits_less; [|eassumption]. lia. }
    { eapply fits_less; [|eassumption]. lia. }
    pose proof (performMove_onto s1 from to bf (Z.of_nat (S (S k))) bt
                  Hf1 Ht1 Hft Fbt) as Hp2.
    set (s2 := mk (relocated (towers s1) from to bf (Z.of_nat (S (S k))) bt)
                  (numDisks s1) (moveCount s1 + 1)
                  (selectedTowerIndex s1) (autoSolving s1)) in *.
    assert (index (towers s2) from = Some bf) as Hf2.
    { eapply relocated_source; eassumption. }
    assert (index (towers s2) to = Some (bt ++ [Z.of_nat (S (S k))])) as Ht2.
    { apply relocated_target. rewrite index_assign_ne; assumption. }
    assert (index (towers s2) aux = Some (ba ++ stack (S k))) as Ha2.
    { cbn [towers s2]. rewrite relocated_other by congruence. assumption. }
    destruct (IH aux to from s2 ba (bt ++ [Z.of_nat (S (S k))]) bf)
      as (s3 & Hp3 & Ha3 & Ht3 & Hf3 & Hn3); try assumption; try congruence.
    { eapply fits_less; [|eassumption]. lia. }
    { apply fits_snoc. lia. }
    { eapply fits_less; [|eassumption]. lia. }
    exists s3. split.
    + cbn [Solver.solution]. rewrite !length_app, !repeat_app.
      eapply performMoves_app; [exact Hp1|].
      cbn [performMoves app]. unfold bind. rewrite Hp2, Hp3. reflexivity.
    + split; [exact Hf3|]. split.
      { rewrite Ht3, (stack_S (S k)), <- app_assoc. reflexivity. }
      split; [exact Ha3|]. rewrite Hn3. simpl. exact Hn1.
Qed.

(** When every answer of [performMoves] is [true], [canMove] accepted each
    move in the state the moves before it had led to. *)
Lemma all_accepted_valid (before : list (Z * Z)) (from to : Z)
  (later : list (Z * Z)) (s s' : t) (n : nat) :
  performMoves (before ++ (from, to) :: later) s = (Ret (repeat true n), s') ->
  valid (verdict_of (after (performMoves before) s) from to) = true.
Proof.
  revert s n. induction before as [|[a b] before IH]; intros s n H.
  - change (after (performMoves []) s) with s.
    cbn [app performMoves] in H. unfold bind at 1 in H.
    destruct (valid (verdict_of s from to)) eqn:Hv; [reflexivity|].
    rewrite performMove_invalid in H by assumption.
    unfold bind in H.
    destruct (performMoves later s) as [[oks|e] s1]; [|discriminate].
    destruct n; discriminate.
  - rewrite performMoves_cons.
    cbn [app performMoves] in H. unfold bind at 1 in H.
    pose proof (performMove_returns s a b) as [ok Hok].
    rewrite Hok in H. unfold bind in H.
    destruct (performMoves (before ++ (from, to) :: later) _)
      as [[oks|e] s1] eqn:Hrest; [|discriminate].
    destruct n as [|n]; [discriminate|].
    injection H as _ Hoks Hs1. subst oks s1.
    eapply IH. exact Hrest.
Qed.

(** C1: for every disk count in 1..15, [prepareSolution] returns (given
    the call-stack depth the recursion needs) a list of 2^count - 1 moves;
    played in order with [performMove] from [init(count)], each of them is
    accepted by [canMove] and by [performMove], and the game is won at
    the end. *)
Theorem generated_solution_wins
  (diskCount : Z) (fuel : nat) (sv : Solver.t) (s0 : t) :
  1 <= diskCount <= 15 -> (Z.to_nat diskCount <= fuel)%nat ->
  exists moves s',
    Solver.prepareSolution fuel diskCount sv =
      (Ret moves, Solver.mk moves 0 (Solver.timer sv)) /\
    Z.of_nat (length moves) = 2 ^ diskCount - 1 /\
    performMoves moves (after (init diskCount) s0) =
      (Ret (repeat true (length moves)), s') /\
    (forall before from to later,
        moves = before ++ (from, to) :: later ->
        result (canMove from to)
          (after (performMoves before) (after (init diskCount) s0)) =
        Ret (mkVerdict true None)) /\
    isGameWon s' = (Ret true, s').
Proof.
  intros Hd Hfuel.
  assert (exists k, diskCount = Z.of_nat (S k)) as [k ->].
  { exists (Z.to_nat diskCount - 1)%nat. lia. }
  set (start := after (init (Z.of_nat (S k))) s0).
  assert (towers start = [stack (S k); []; []] /\
          numDisks start = Z.of_nat (S k)) as [Htw Hnd].
  { unfold start, after. rewrite init_eq.
    replace (Z.max 1 (Z.min 15 (Z.of_nat (S k)))) with (Z.of_nat (S k)) by lia.
    split; reflexivity. }
  destruct (solution_plays k 0 2 1 start [] [] [])
    as (s' & Hplay & _ & Htarget & _ & Hnum); try lia;
    try (rewrite Htw; reflexivity); try (intros top Htop; discriminate).
  exists (Solver.solution k 0 2 1), s'.
  split; [apply prepareSolution_enough; lia|].
  split; [apply solution_length|].
  split; [exact Hplay|]. split.
  - intros before from to later Hsplit. rewrite Hsplit in Hplay.
    pose proof (all_accepted_valid _ _ _ _ _ _ _ Hplay) as Hv.
    unfold result. rewrite canMove_eq. simpl.
    revert Hv. unfold verdict_of.
    repeat match goal with
           | |- context [match ?x with _ => _ end] => destruct x
           end; simpl; intros; congruence.
  - unfold isGameWon, bind, gets. rewrite Htarget. simpl. unfold ret.
    rewrite Hnum, Hnd. unfold stack.
    rewrite length_reverse, length_seqZ.
    destruct (Z.eqb_spec (Z.of_nat (Z.to_nat (Z.of_nat (S k)))) (Z.of_nat (S k)));
      [reflexivity|lia].
Qed.

Lemma generated_solution_wins_witness :
  exists moves s',
    Solver.prepareSolution 3 3 Solver.new =
      (Ret moves, Solver.mk moves 0 (Solver.timer Solver.new)) /\
    Z.of_nat (length moves) = 2 ^ 3 - 1 /\
    performMoves moves (after (init 3) (new 4)) =
      (Ret (repeat true (length moves)), s') /\
    (forall before from to later,
        moves = before ++ (from, to) :: later ->
        result (canMove from to)
          (after (performMoves before) (after (init 3) (new 4))) =
        Ret (mkVerdict true None)) /\
    isGameWon s' = (Ret true, s').
Proof. apply (generated_solution_wins 3 3 Solver.new (new 4)); lia. Defined.

(** Scenario B of the specification: the moves for two disks. *)
Example prepareSolution_two :
  fst (Solver.prepareSolution 2 2 Solver.new) = Ret [(0, 1); (0, 2); (1, 2)].
Proof. reflexivity. Qed.

End SolverProps.

(** * Properties of the timed playback *)

Module PlaybackProps.

Import Playback.

(** C9 fails as stated: [startAutoPlay] does not clear an interval that is
    already running.  Called twice in a row it leaves the first interval
    registered; [stop()] clears the second only, and each later tick of the
    first calls [onComplete] again. *)
Lemma second_start_leaks_interval :
  calls (execs [StartAutoPlay both; StartAutoPlay both; Stop] ready) = [] /\
  calls (execs [StartAutoPlay both; StartAutoPlay both; Stop; Tick 1%positive; Tick 1%positive]
           ready) = [OnComplete 1%positive; OnComplete 1%positive] /\
  completions 1%positive
    (calls (execs [StartAutoPlay both; StartAutoPlay both; Stop; Tick 1%positive; Tick 1%positive]
              ready)) = 2%nat.
Proof. vm_compute. repeat split. Qed.

(** ** One interval at a time *)

Lemma completions_snoc (h : positive) (cs : list called) (c : called) :
  completions h (cs ++ [c]) =
  (completions h cs + if is_completion h c then 1 else 0)%nat.
Proof.
  induction cs as [|c' cs IH]; simpl.
  - lia.
  - rewrite IH. lia.
Qed.

(** [getNextMove] never throws: past the test, the cursor is an index of
    [moves]. *)
Lemma getNextMove_cases (sv : Solver.t) :
  Solver.getNextMove sv = (Ret None, sv) \/
  (exists mv,
      Solver.getNextMove sv =
      (Ret (Some mv),
       Solver.mk (Solver.moves sv) (S (Solver.currentMoveIndex sv))
         (Solver.timer sv))).
Proof.
  unfold Solver.getNextMove, bind, gets, modify, ret, throw. simpl.
  destruct (Nat.leb_spec (length (Solver.moves sv))
              (Solver.currentMoveIndex sv)) as [Hle|Hlt].
  - left. reflexivity.
  - destruct (_ !! _) as [[from to]|] eqn:Hmv.
    + right. eexists. reflexivity.
    + apply lookup_ge_None in Hmv. unfold Solver.move in *. lia.
Qed.

Lemma stop_eq (w : world) :
  stop w =
  mkWorld (Solver.mk [] 0 None)
    (match Solver.timer (solver w) with
     | Some h => delete h (intervals w)
     | None => intervals w
     end)
    (nextHandle w) (calls w).
Proof.
  unfold stop. destruct w as [[ms i [h|]] iv n cs]; reflexivity.
Qed.

Lemma one_interval_idle (sv : Solver.t) (first : positive) :
  one_interval (idle sv first).
Proof.
  unfold one_interval, idle. simpl. split; [|split; [|split]].
  - intros h [cb Hcb]. rewrite lookup_empty in Hcb. discriminate.
  - intros h Hh. discriminate.
  - intros h. lia.
  - intros h _. reflexivity.
Qed.

Lemma one_interval_stop (w : world) : one_interval w -> one_interval (stop w).
Proof.
  intros (Hreg & Hrun & Honce & Hfresh). rewrite stop_eq.
  unfold one_interval. simpl. split; [|split; [|split]].
  - intros h Hh. exfalso.
    destruct (Solver.timer (solver w)) as [h0|] eqn:Htimer.
    + apply lookup_delete_is_Some in Hh as [Hne Hh].
      apply Hreg in Hh. congruence.
    + apply Hreg in Hh. congruence.
  - intros h Hh. discriminate.
  - exact Honce.
  - exact Hfresh.
Qed.

Lemma stop_clears (w : world) (h : positive) :
  one_interval w -> intervals (stop w) !! h = None.
Proof.
  intros Hw. apply one_interval_stop in Hw as (Hreg & _).
  destruct (intervals (stop w) !! h) as [cb|] eqn:Hcb; [|reflexivity].
  assert (is_Some (intervals (stop w) !! h)) as Hsome by (rewrite Hcb; eauto).
  apply Hreg in Hsome. rewrite stop_eq in Hsome. discriminate.
Qed.

Lemma one_interval_start (cb : callbacks) (w : world) :
  Solver.timer (solver w) = None ->
  one_interval w -> one_interval (startAutoPlay cb w).
Proof.
  intros Hidle (Hreg & Hrun & Honce & Hfresh).
  unfold one_interval, startAutoPlay, setInterval, set_solver_of. simpl.
  split; [|split; [|split]].
  - intros h Hh. apply lookup_insert_is_Some in Hh as [->|[_ Hh]].
    + reflexivity.
    + apply Hreg in Hh. congruence.
  - intros h [= <-]. split; [lia|]. apply Hfresh. lia.
  - exact Honce.
  - intros h Hh. apply Hfresh. lia.
Qed.

Lemma one_interval_tick (h : positive) (w : world) :
  one_interval w -> one_interval (tick h w).
Proof.
  intros Hw. unfold tick.
  destruct (intervals w !! h) as [cb|] eqn:Hcb; [|exact Hw].
  pose proof Hw as (Hreg & Hrun & Honce & Hfresh).
  assert (Solver.timer (solver w) = Some h) as Htimer.
  { apply Hreg. rewrite Hcb. eauto. }
  destruct (Hrun h Htimer) as [Hlt Hzero].
  unfold tick_body.
  destruct (getNextMove_cases (solver w)) as [->|[[from to] ->]].
  - assert (set_solver_of (solver w) w = w) as -> by (destruct w; reflexivity).
    pose proof (one_interval_stop w Hw) as Hs.
    destruct (onComplete cb); [|exact Hs].
    destruct Hs as (Hreg' & Hrun' & Honce' & Hfresh').
    rewrite stop_eq in *. unfold one_interval, record_call. simpl in *.
    split; [exact Hreg'|]. split; [intros ? ?; discriminate|]. split.
    + intros h'. rewrite completions_snoc. simpl.
      destruct (Pos.eqb_spec h h') as [<-|Hne].
      * rewrite Hzero. lia.
      * specialize (Honce h'). lia.
    + intros h' Hh'. rewrite completions_snoc, Hfresh by assumption. simpl.
      destruct (Pos.eqb_spec h h'); [lia|reflexivity].
  - assert (one_interval
              (set_solver_of
                 (Solver.mk (Solver.moves (solver w))
                    (S (Solver.currentMoveIndex (solver w)))
                    (Solver.timer (solver w))) w)) as Hs.
    { unfold one_interval, set_solver_of. simpl.
      split; [exact Hreg|]. split; [exact Hrun|]. split; assumption. }
    destruct (onMove cb); [|exact Hs].
    destruct Hs as (Hreg' & Hrun' & Honce' & Hfresh').
    unfold one_interval, record_call, set_solver_of in *. simpl in *.
    split; [exact Hreg'|]. split; [|split].
    + intros h' Hh'. rewrite completions_snoc. simpl.
      destruct (Hrun' h' Hh') as [? ->]. split; [assumption|reflexivity].
    + intros h'. rewrite completions_snoc. simpl. specialize (Honce' h'). lia.
    + intros h' Hh'. rewrite completions_snoc, Hfresh' by assumption.
      reflexivity.
Qed.

Lemma one_interval_execs (es : list event) (w : world) :
  one_interval w -> starts_when_stopped es w = true ->
  one_interval (execs es w).
Proof.
  revert w. induction es as [|e es IH]; intros w Hw Hes; [exact Hw|].
  simpl in Hes. apply andb_true_iff in Hes as [He Hes].
  unfold execs. simpl. apply IH; [|exact Hes].
  destruct e as [cb| |h]; simpl.
  - apply one_interval_start; [|exact Hw].
    destruct (Solver.timer (solver w)); [discriminate|reflexivity].
  - apply one_interval_stop, Hw.
  - apply one_interval_tick, Hw.
Qed.

Lemma ticks_after_stop (hs : list positive) (w : world) :
  one_interval w -> execs (map Tick hs) (stop w) = stop w.
Proof.
  intros Hw. induction hs as [|h hs IH]; [reflexivity|].
  unfold execs in *. cbn [map foldl exec]. unfold tick.
  rewrite stop_clears by assumption. exact IH.
Qed.

(** C9, as the code has it: when [startAutoPlay] is only called while the
    solver is not running (as [GameController.startAutoSolve] does, which
    calls [stop()] first), then whatever the order of the starts, the ticks
    and the stops, [onComplete] is called at most once for each playback;
    and once [stop()] has been called the solver is not running, no
    interval is registered, and ticks that were still to come call neither
    callback and change nothing. *)
Theorem playback_completes_once
  (sv : Solver.t) (first : positive) (es : list event) :
  starts_when_stopped es (idle sv first) = true ->
  let w := execs es (idle sv first) in
  (forall h, (completions h (calls w) <= 1)%nat) /\
  Solver.isRunning (solver (stop w)) = (Ret false, solver (stop w)) /\
  (forall h, intervals (stop w) !! h = None) /\
  (forall hs, execs (map Tick hs) (stop w) = stop w) /\
  (forall hs, calls (execs (map Tick hs) (stop w)) = calls w).
Proof.
  intros Hes w.
  pose proof (one_interval_execs es _ (one_interval_idle sv first) Hes) as Hw.
  fold w in Hw. split; [apply Hw|]. split.
  { rewrite stop_eq. reflexivity. }
  split; [intros h; apply stop_clears, Hw|].
  split; [intros hs; apply ticks_after_stop, Hw|].
  intros hs. rewrite ticks_after_stop by exact Hw. rewrite stop_eq. reflexivity.
Qed.

Lemma playback_completes_once_witness :
  let w :=
    execs [StartAutoPlay both; Tick 1%positive; Stop; Tick 1%positive; StartAutoPlay both;
           Tick 2%positive; Tick 2%positive] ready in
  (forall h, (completions h (calls w) <= 1)%nat) /\
  Solver.isRunning (solver (stop w)) = (Ret false, solver (stop w)) /\
  (forall h, intervals (stop w) !! h = None) /\
  (forall hs, execs (map Tick hs) (stop w) = stop w) /\
  (forall hs, calls (execs (map Tick hs) (stop w)) = calls w).
Proof.
  apply (playback_completes_once (Solver.mk [(0, 2)] 0 None) 1%positive
           [StartAutoPlay both; Tick 1%positive; Stop; Tick 1%positive; StartAutoPlay both;
            Tick 2%positive; Tick 2%positive]).
  vm_compute. reflexivity.
Defined.

End PlaybackProps.

(** * Further properties of GameState *)

Module GamePlayProps.

Import GameState GameStateProps SolverProps Play.

(** ** [getTopDisk] *)

(** [getTopDisk] on three towers: outside 0..2 it throws a [TypeError] (it
    reads [length] of [undefined]); on a tower it returns the last disk
    pushed, and [undefined] exactly when the tower is empty.  [canMove], on
    the same bad index, answers with an invalid verdict instead. *)
Theorem getTopDisk_by_index (s : t) (i : Z) :
  length (towers s) = 3%nat ->
  (~ 0 <= i <= 2 ->
     getTopDisk i s = (Throw TypeError, s) /\
     canMove i i s = (Ret (mkVerdict false (Some BadTowerIndex)), s)) /\
  (0 <= i <= 2 ->
     exists tower,
       index (towers s) i = Some tower /\
       getTopDisk i s = (Ret (last tower), s) /\
       (last tower = None <-> tower = []) /\
       (forall rest disk, tower = rest ++ [disk] -> last tower = Some disk)).
Proof.
  intros Hlen. split.
  - intros Hi.
    assert (index (towers s) i = None) as Hnone.
    { apply index_None_range. lia. }
    unfold getTopDisk, canMove, bind, gets, throw. rewrite Hnone.
    split; reflexivity.
  - intros Hi. destruct (index (towers s) i) as [tower|] eqn:Htw.
    2:{ apply index_None_range in Htw. lia. }
    exists tower. split; [reflexivity|]. split.
    + unfold getTopDisk, bind, gets, ret. rewrite Htw.
      destruct tower; reflexivity.
    + split; [apply last_None|]. intros rest disk ->. apply last_snoc.
Qed.

Lemma getTopDisk_by_index_witness :
  (~ 0 <= 0 <= 2 ->
     getTopDisk 0 start3 = (Throw TypeError, start3) /\
     canMove 0 0 start3 =
       (Ret (mkVerdict false (Some BadTowerIndex)), start3)) /\
  (0 <= 0 <= 2 ->
     exists tower,
       index (towers start3) 0 = Some tower /\
       getTopDisk 0 start3 = (Ret (last tower), start3) /\
       (last tower = None <-> tower = []) /\
       (forall rest disk, tower = rest ++ [disk] -> last tower = Some disk)).
Proof. apply (getTopDisk_by_index start3 0). reflexivity. Defined.

(** ** The move count *)

Lemma performMove_counts (s : t) (src dst : Z) :
  exists ok,
    performMove src dst s = (Ret ok, after (performMove src dst) s) /\
    moveCount (after (performMove src dst) s) =
      moveCount s + (if ok then 1 else 0).
Proof.
  unfold after. destruct (valid (verdict_of s src dst)) eqn:Hv.
  - destruct (performMove_valid s src dst Hv) as (? & ? & ? & _ & _ & ->).
    exists true. split; reflexivity.
  - rewrite performMove_invalid by assumption. exists false. simpl.
    split; [reflexivity|lia].
Qed.

Lemma performMoves_count (moves : list (Z * Z)) (s : t) :
  exists oks,
    performMoves moves s = (Ret oks, after (performMoves moves) s) /\
    length oks = length moves /\
    moveCount (after (performMoves moves) s) = moveCount s + successes oks.
Proof.
  revert s. induction moves as [|[from to] moves IH]; intros s.
  - exists []. split; [reflexivity|]. split; [reflexivity|].
    unfold after. simpl. lia.
  - destruct (performMove_counts s from to) as (ok & Hok & Hcount).
    destruct (IH (after (performMove from to) s)) as (oks & Hoks & Hlen & Hc).
    exists (ok :: oks). rewrite performMoves_cons. split.
    + cbn [performMoves]. unfold bind at 1. rewrite Hok.
      unfold bind at 1. rewrite Hoks. reflexivity.
    + split; [simpl; rewrite Hlen; reflexivity|].
      rewrite Hc, Hcount. simpl. lia.
Qed.

(** Whatever moves are asked for, valid or not, [performMove] answers each
    of them, and the move count grows by exactly the number of [true]
    answers: a rejected move is never counted. *)
Theorem moveCount_counts_accepted_moves (moves : list (Z * Z)) (s : t) :
  exists oks s',
    performMoves moves s = (Ret oks, s') /\
    length oks = length moves /\
    moveCount s' = moveCount s + successes oks /\
    moveCount s <= moveCount s' <= moveCount s + Z.of_nat (length moves).
Proof.
  destruct (performMoves_count moves s) as (oks & Hp & Hlen & Hc).
  exists oks, (after (performMoves moves) s).
  split; [exact Hp|]. split; [exact Hlen|]. split; [exact Hc|].
  rewrite Hc, <- Hlen. clear. induction oks as [|[|] oks IH]; simpl; lia.
Qed.

(** ** Taking a move back *)

(** In a well-stacked state, a move between two different towers that
    [performMove] accepted can always be taken back: the opposite move is
    accepted too, it restores the towers exactly, and the two moves count
    as two. *)
Theorem performMove_can_be_undone (s : t) (src dst : Z) :
  well_stacked s -> src <> dst ->
  result (performMove src dst) s = Ret true ->
  exists s1 s2,
    performMove src dst s = (Ret true, s1) /\
    performMove dst src s1 = (Ret true, s2) /\
    towers s2 = towers s /\
    moveCount s2 = moveCount s + 2 /\
    numDisks s2 = numDisks s /\
    selectedTowerIndex s2 = selectedTowerIndex s /\
    autoSolving s2 = autoSolving s.
Proof.
  intros (Hlen & Hdec & Hperm) Hne Hok. unfold result in Hok.
  destruct (valid (verdict_of s src dst)) eqn:Hv.
  2:{ rewrite performMove_invalid in Hok by assumption. discriminate. }
  destruct (performMove_valid s src dst Hv)
    as (rest & disk & target & Hs & Ht & Hp).
  eexists _, _. split; [exact Hp|].
  set (s1 := mk (relocated (towers s) src dst rest disk target) (numDisks s)
                (moveCount s + 1) (selectedTowerIndex s) (autoSolving s)).
  assert (index (towers s1) dst = Some (target ++ [disk])) as Hd1.
  { apply relocated_target, Ht. }
  assert (index (towers s1) src = Some rest) as Hs1.
  { eapply relocated_source; eassumption. }
  assert (forall top, last rest = Some top -> disk < top) as Hfit.
  { intros top Htop. pose proof (Forall_index _ _ _ _ Hdec Hs) as Hsd.
    simpl in Hsd. rewrite strictly_decreasing_snoc, Htop in Hsd.
    apply andb_true_iff in Hsd as [_ Hsd]. apply Z.ltb_lt, Hsd. }
  rewrite (performMove_onto s1 dst src target disk rest Hd1 Hs1
             (not_eq_sym Hne) Hfit).
  split; [reflexivity|]. cbn [towers moveCount numDisks selectedTowerIndex
                              autoSolving s1].
  split; [|repeat split; lia].
  unfold relocated. rewrite assign_assign_eq, (assign_id _ dst target Ht).
  rewrite assign_assign_eq. apply assign_id, Hs.
Qed.

Lemma performMove_can_be_undone_witness :
  exists s1 s2,
    performMove 0 2 start3 = (Ret true, s1) /\
    performMove 2 0 s1 = (Ret true, s2) /\
    towers s2 = towers start3 /\
    moveCount s2 = moveCount start3 + 2 /\
    numDisks s2 = numDisks start3 /\
    selectedTowerIndex s2 = selectedTowerIndex start3 /\
    autoSolving s2 = autoSolving start3.
Proof.
  apply (performMove_can_be_undone start3 0 2).
  - apply (well_stacked_init 3 (new 4)).
  - lia.
  - reflexivity.
Defined.

(** ** When the game is won *)

Lemma strictly_decreasing_Sorted (tower : list Z) :
  strictly_decreasing tower = true -> Sorted (flip Z.lt) tower.
Proof.
  induction tower as [|a [|b r] IH]; intros Hsd.
  - constructor.
  - repeat constructor.
  - change (strictly_decreasing (a :: b :: r))
      with ((b <? a) && strictly_decreasing (b :: r)) in Hsd.
    apply andb_true_iff in Hsd as [Hba Hr].
    constructor; [apply IH, Hr|]. constructor. apply Z.ltb_lt, Hba.
Qed.

(** Two strictly decreasing towers with the same disks are the same. *)
Lemma strictly_decreasing_unique (t1 t2 : list Z) :
  strictly_decreasing t1 = true -> strictly_decreasing t2 = true ->
  t1 ≡ₚ t2 -> t1 = t2.
Proof.
  intros H1 H2 Hp.
  assert (Transitive (flip Z.lt)) by (intros x y z; unfold flip; lia).
  assert (AntiSymm (=) (flip Z.lt)) by (intros x y; unfold flip; lia).
  apply (Sorted_unique (flip Z.lt)); auto using strictly_decreasing_Sorted.
Qed.

Lemma strictly_decreasing_stack (n : Z) :
  strictly_decreasing (reverse (seqZ 1 n)) = true.
Proof.
  apply strictly_decreasing_adjacent. intros i lower upper H1 H2.
  destruct (Z.lt_ge_cases (Z.of_nat (S i)) n) as [Hi|Hi].
  - rewrite descending_lookup in H1, H2 by lia.
    injection H1 as <-. injection H2 as <-. lia.
  - apply lookup_lt_Some in H2.
    rewrite length_reverse, length_seqZ in H2. lia.
Qed.

Lemma won_towers (s : t) :
  well_stacked s -> 0 <= numDisks s ->
  isGameWon s = (Ret true, s) <->
  towers s = [[]; []; reverse (seqZ 1 (numDisks s))].
Proof.
  intros (Hlen & Hdec & Hperm) Hn.
  destruct (towers s) as [|t0 [|t1 [|t2 [|? ?]]]] eqn:Htw; try discriminate.
  unfold isGameWon, bind, gets, ret. rewrite Htw. simpl.
  simpl in Hperm. rewrite app_nil_r in Hperm. split.
  - intros Hwon. injection Hwon as Hwon. apply Z.eqb_eq in Hwon.
    pose proof (Permutation_length Hperm) as Hl.
    rewrite !length_app, length_seqZ in Hl.
    assert (t0 = []) as -> by (destruct t0; [reflexivity|simpl in Hl; lia]).
    assert (t1 = []) as -> by (destruct t1; [reflexivity|simpl in Hl; lia]).
    do 2 f_equal. f_equal. simpl in Hperm.
    apply strictly_decreasing_unique.
    + apply (Forall_lookup_1 _ _ 2%nat _ Hdec). reflexivity.
    + apply strictly_decreasing_stack.
    + rewrite Hperm. symmetry. apply reverse_Permutation.
  - intros [= -> -> ->]. rewrite length_reverse, length_seqZ.
    destruct (Z.eqb_spec (Z.of_nat (Z.to_nat (numDisks s))) (numDisks s));
      [reflexivity|lia].
Qed.

(** After [init(d)] and any calls of [performMove], [isGameWon] answers
    [true] exactly when towers 0 and 1 are empty and tower 2 holds the
    disks numDisks, ..., 1 from the bottom up: comparing the height of
    tower 2 with the disk count is enough.  Right after [init] the answer
    is [false]. *)
Theorem isGameWon_exactly_at_goal (d : Z) (s0 : t) (moves : list (Z * Z)) :
  let s := after (performMoves moves) (after (init d) s0) in
  exists won,
    isGameWon s = (Ret won, s) /\
    (won = true <->
     towers s = [[]; []; reverse (seqZ 1 (numDisks s))]) /\
    isGameWon (after (init d) s0) = (Ret false, after (init d) s0).
Proof.
  intros s.
  destruct (performMoves_keep_well_stacked moves _ (well_stacked_init d s0))
    as [Hws Hnum]. fold s in Hws, Hnum.
  assert (0 <= numDisks s) as Hn.
  { rewrite Hnum. unfold after. rewrite init_eq. simpl. lia. }
  pose proof (won_towers s Hws Hn) as Hiff.
  pose proof Hws as (Hlen & _).
  destruct (towers s) as [|t0 [|t1 [|t2 [|? ?]]]] eqn:Htw; try discriminate.
  exists (Z.of_nat (length t2) =? numDisks s). split; [|split].
  - unfold isGameWon, bind, gets, ret. rewrite Htw. reflexivity.
  - rewrite <- Hiff. unfold isGameWon, bind, gets, ret. rewrite Htw. simpl.
    split; [intros ->; reflexivity|intros [= ->]; reflexivity].
  - unfold after. rewrite init_eq. unfold isGameWon, bind, gets, ret. simpl.
    destruct (Z.max 1 (Z.min 15 d)) eqn:E; [lia|reflexivity|reflexivity].
Qed.

End GamePlayProps.

(** * The fewest moves *)

Module OptimalityProps.

Import GameState GameStateProps SolverProps GamePlayProps Play.

(** ** The distance to the goal drops by at most one per move *)

Lemma distance_nonneg (peg : Z -> Z) (k : nat) (target : Z) :
  0 <= distance peg k target.
Proof.
  revert target. induction k as [|k IH]; intros target; simpl; [lia|].
  destruct (peg _ =? target).
  - apply IH.
  - specialize (IH (third (peg (Z.of_nat (S k))) target)).
    assert (0 < 2 ^ Z.of_nat k) by (apply Z.pow_pos_nonneg; lia). lia.
Qed.

Lemma distance_ext (peg peg' : Z -> Z) (k : nat) (target : Z) :
  (forall x, 1 <= x <= Z.of_nat k -> peg x = peg' x) ->
  distance peg k target = distance peg' k target.
Proof.
  revert target. induction k as [|k IH]; intros target Hext; [reflexivity|].
  cbn [distance]. rewrite <- (Hext (Z.of_nat (S k))) by lia.
  rewrite !IH by (intros x Hx; apply Hext; lia). reflexivity.
Qed.

(** With the disks 1..k all on tower [r]. *)
Lemma distance_all_on (peg : Z -> Z) (k : nat) (r target : Z) :
  0 <= r <= 2 -> 0 <= target <= 2 ->
  (forall x, 1 <= x <= Z.of_nat k -> peg x = r) ->
  distance peg k target = if r =? target then 0 else 2 ^ Z.of_nat k - 1.
Proof.
  revert target. induction k as [|k IH]; intros target Hr Ht Hall.
  - simpl. destruct (r =? target); reflexivity.
  - cbn [distance]. rewrite (Hall (Z.of_nat (S k))) by lia.
    destruct (Z.eqb_spec r target) as [->|Hne].
    + rewrite IH by (try lia; intros x Hx; apply Hall; lia).
      rewrite Z.eqb_refl. reflexivity.
    + rewrite IH by (unfold third; try lia; intros x Hx; apply Hall; lia).
      destruct (Z.eqb_spec r (third r target)) as [Heq|_];
        [unfold third in Heq; lia|].
      replace (Z.of_nat (S k)) with (Z.of_nat k + 1) by lia.
      rewrite Z.pow_add_r by lia. lia.
Qed.

(** One disk [d] goes from tower [p] to tower [q]; the smaller disks are on
    neither of the two. *)
Lemma distance_step (peg peg' : Z -> Z) (d p q : Z) (k : nat) (target : Z) :
  (forall x, 0 <= peg x <= 2) ->
  1 <= d -> 0 <= p <= 2 -> 0 <= q <= 2 -> p <> q ->
  peg d = p -> peg' d = q ->
  (forall x, 1 <= x <= Z.of_nat k -> x <> d -> peg' x = peg x) ->
  (forall x, 1 <= x < d -> peg x <> p /\ peg x <> q) ->
  0 <= target <= 2 ->
  distance peg k target <= distance peg' k target + 1.
Proof.
  intros Hrange Hd Hp Hq Hpq Hpd Hqd Hsame Hsmall.
  revert target. induction k as [|k IH]; intros target Ht; [simpl; lia|].
  assert (forall x, 1 <= x <= Z.of_nat k -> x <> d -> peg' x = peg x) as Hsame'.
  { intros x Hx. apply Hsame. lia. }
  specialize (IH Hsame').
  destruct (Z.lt_trichotomy (Z.of_nat (S k)) d) as [Hlt|[Heq|Hgt]].
  - rewrite (distance_ext peg peg'); [lia|].
    intros x Hx. symmetry. apply Hsame; lia.
  - assert (forall x, 1 <= x <= Z.of_nat k -> peg x = third p q) as Hall.
    { intros x Hx. destruct (Hsmall x) as [H1 H2]; [lia|].
      specialize (Hrange x). unfold third. lia. }
    assert (forall x, 1 <= x <= Z.of_nat k -> peg' x = third p q) as Hall'.
    { intros x Hx. rewrite Hsame by lia. apply Hall, Hx. }
    assert (0 < 2 ^ Z.of_nat k) by (apply Z.pow_pos_nonneg; lia).
    cbn [distance]. rewrite Heq, Hpd, Hqd.
    assert (0 <= third p q <= 2) as Hr by (unfold third; lia).
    destruct (Z.eqb_spec p target) as [Hpt|Hpt];
      destruct (Z.eqb_spec q target) as [Hqt|Hqt]; try lia; try subst target.
    + rewrite (distance_all_on peg k (third p q) p) by (try lia; assumption).
      rewrite (distance_all_on peg' k (third p q) (third q p))
        by (unfold third in *; try lia; assumption).
      destruct (Z.eqb_spec (third p q) p) as [E|_];
        [unfold third in E; lia|].
      destruct (Z.eqb_spec (third p q) (third q p)) as [_|E];
        [lia|unfold third in E; lia].
    + rewrite (distance_all_on peg k (third p q) (third p q))
        by (try lia; assumption).
      rewrite (distance_all_on peg' k (third p q) q) by (try lia; assumption).
      rewrite Z.eqb_refl.
      destruct (Z.eqb_spec (third p q) q) as [E|_];
        [unfold third in E; lia|]. lia.
    + rewrite (distance_all_on peg k (third p q) (third p target))
        by (unfold third in *; try lia; assumption).
      rewrite (distance_all_on peg' k (third p q) (third q target))
        by (unfold third in *; try lia; assumption).
      destruct (Z.eqb_spec (third p q) (third p target)) as [E|_];
        [unfold third in E; lia|].
      destruct (Z.eqb_spec (third p q) (third q target)) as [E|_];
        [unfold third in E; lia|]. lia.
  - cbn [distance]. rewrite (Hsame (Z.of_nat (S k))) by lia.
    destruct (peg (Z.of_nat (S k)) =? target) eqn:E.
    + apply IH, Ht.
    + apply Z.eqb_neq in E. pose proof (Hrange (Z.of_nat (S k))) as Hr.
      specialize (IH (third (peg (Z.of_nat (S k))) target)).
      unfold third in *. lia.
Qed.

(** ** Where a disk stands *)

Lemma peg_of_range (s : t) (x : Z) : 0 <= peg_of s x <= 2.
Proof.
  unfold peg_of. destruct (towers s) as [|t0 [|t1 ts]]; try lia.
  repeat case_bool_decide; lia.
Qed.

Lemma peg_of_towers (s s' : t) (x : Z) :
  towers s' = towers s -> peg_of s' x = peg_of s x.
Proof. intros H. unfold peg_of. rewrite H. reflexivity. Qed.

Lemma peg_of_holds (s : t) (x : Z) :
  length (towers s) = 3%nat -> x ∈ concat (towers s) ->
  exists tower, index (towers s) (peg_of s x) = Some tower /\ x ∈ tower.
Proof.
  intros Hlen Hx. unfold peg_of.
  destruct (towers s) as [|t0 [|t1 [|t2 [|? ?]]]]; try discriminate.
  simpl in Hx. rewrite app_nil_r, !elem_of_app in Hx.
  repeat case_bool_decide; eexists; (split; [reflexivity|]); tauto.
Qed.

Lemma elem_of_concat_lookup (ts : list (list Z)) (i : nat) tower (x : Z) :
  ts !! i = Some tower -> x ∈ tower -> x ∈ concat ts.
Proof.
  revert i. induction ts as [|tw ts IH]; intros [|i] H Hx;
    try discriminate; simpl in *; apply elem_of_app.
  - injection H as ->. left. assumption.
  - right. eapply IH; eassumption.
Qed.

Lemma tower_unique_lookup (ts : list (list Z)) (i j : nat) l1 l2 (x : Z) :
  NoDup (concat ts) -> ts !! i = Some l1 -> ts !! j = Some l2 ->
  x ∈ l1 -> x ∈ l2 -> i = j.
Proof.
  revert i j. induction ts as [|tw ts IH]; intros i j Hnd Hi Hj H1 H2.
  { destruct i; discriminate. }
  simpl in Hnd. apply NoDup_app in Hnd as (_ & Hdisj & Hnd).
  destruct i as [|i], j as [|j]; simpl in *.
  - reflexivity.
  - injection Hi as ->. exfalso. apply (Hdisj x H1).
    eapply elem_of_concat_lookup; eassumption.
  - injection Hj as ->. exfalso. apply (Hdisj x H2).
    eapply elem_of_concat_lookup; eassumption.
  - f_equal. eapply IH; eassumption.
Qed.

Lemma tower_unique (ts : list (list Z)) (i j : Z) l1 l2 (x : Z) :
  NoDup (concat ts) -> index ts i = Some l1 -> index ts j = Some l2 ->
  x ∈ l1 -> x ∈ l2 -> i = j.
Proof.
  unfold index. destruct (Z.leb_spec 0 i), (Z.leb_spec 0 j); try discriminate.
  intros Hnd Hi Hj H1 H2.
  pose proof (tower_unique_lookup _ _ _ _ _ _ Hnd Hi Hj H1 H2). lia.
Qed.

Lemma well_stacked_NoDup (s : t) : well_stacked s -> NoDup (concat (towers s)).
Proof. intros (_ & _ & Hperm). rewrite Hperm. apply NoDup_seqZ. Qed.

Lemma peg_of_unique (s : t) (x i : Z) tower :
  well_stacked s -> index (towers s) i = Some tower -> x ∈ tower ->
  peg_of s x = i.
Proof.
  intros Hws Hi Hx. pose proof Hws as (Hlen & _).
  destruct (peg_of_holds s x Hlen) as (tw & Htw & Hxtw).
  { eapply elem_of_concat_index; eassumption. }
  eapply tower_unique; eauto using well_stacked_NoDup.
Qed.

Lemma strictly_decreasing_snoc_above (tower : list Z) (disk x : Z) :
  strictly_decreasing (tower ++ [disk]) = true -> x ∈ tower -> disk < x.
Proof.
  revert x. induction tower as [|a [|b r] IH]; intros x Hsd Hx.
  - inversion Hx.
  - apply list_elem_of_singleton in Hx as ->. simpl in Hsd.
    apply andb_true_iff in Hsd as [Hsd _]. apply Z.ltb_lt, Hsd.
  - change (strictly_decreasing ((a :: b :: r) ++ [disk]))
      with ((b <? a) && strictly_decreasing ((b :: r) ++ [disk])) in Hsd.
    apply andb_true_iff in Hsd as [Hba Hsd]. apply Z.ltb_lt in Hba.
    apply elem_of_cons in Hx as [->|Hx].
    + assert (disk < b); [|lia]. apply IH; [exact Hsd|]. left.
    + apply IH; assumption.
Qed.

Lemma disk_in_range (s : t) (x : Z) :
  well_stacked s -> x ∈ concat (towers s) <-> 1 <= x <= numDisks s.
Proof.
  intros (_ & _ & Hperm). rewrite Hperm, elem_of_seqZ. lia.
Qed.

(** ** One call of [performMove] *)

Lemma distance_performMove (s : t) (src dst target : Z) :
  well_stacked s -> 0 <= target <= 2 ->
  distance (peg_of s) (Z.to_nat (numDisks s)) target <=
  distance (peg_of (after (performMove src dst) s))
    (Z.to_nat (numDisks s)) target
  + (moveCount (after (performMove src dst) s) - moveCount s).
Proof.
  intros Hws Htarget.
  pose proof (performMove_keeps_well_stacked s src dst Hws) as Hws'.
  revert Hws'. unfold after.
  destruct (valid (verdict_of s src dst)) eqn:Hv.
  2:{ rewrite performMove_invalid by assumption. simpl. lia. }
  destruct (performMove_valid s src dst Hv)
    as (rest & disk & tg & Hs & Ht & ->).
  cbn [snd moveCount].
  set (s' := mk (relocated (towers s) src dst rest disk tg) (numDisks s)
                (moveCount s + 1) (selectedTowerIndex s) (autoSolving s)).
  intros Hws'.
  destruct (Z.eq_dec src dst) as [<-|Hne].
  { rewrite (distance_ext (peg_of s') (peg_of s)); [lia|].
    intros x _. apply peg_of_towers. eapply relocated_same; eassumption. }
  rewrite index_assign_ne in Ht by assumption.
  pose proof Hws as (Hlen & Hdec & Hperm).
  pose proof Hws' as (_ & Hdec' & _).
  assert (index (towers s') dst = Some (tg ++ [disk])) as Hd'.
  { apply relocated_target. rewrite index_assign_ne; assumption. }
  assert (index (towers s') src = Some rest) as Hs'.
  { eapply relocated_source; eassumption. }
  assert (disk ∈ rest ++ [disk]) as Hin by (apply elem_of_app; right; left).
  assert (disk ∈ tg ++ [disk]) as Hin' by (apply elem_of_app; right; left).
  pose proof (Forall_index _ _ _ _ Hdec Hs) as Hsd. simpl in Hsd.
  pose proof (Forall_index _ _ _ _ Hdec' Hd') as Hsd'. simpl in Hsd'.
  assert (forall x, 1 <= x <= numDisks s ->
            exists tower,
              index (towers s) (peg_of s x) = Some tower /\ x ∈ tower)
    as Hstands.
  { intros x Hx. apply peg_of_holds; [exact Hlen|].
    apply disk_in_range; assumption. }
  assert (1 <= disk <= numDisks s) as Hdisk.
  { apply (disk_in_range s disk Hws).
    apply (elem_of_concat_index _ src (rest ++ [disk])); assumption. }
  replace (moveCount s + 1 - moveCount s) with 1 by lia.
  apply (distance_step (peg_of s) (peg_of s') disk src dst).
  - apply peg_of_range.
  - lia.
  - apply index_Some_range in Hs. lia.
  - apply index_Some_range in Ht. lia.
  - exact Hne.
  - apply (peg_of_unique s disk src (rest ++ [disk])); assumption.
  - apply (peg_of_unique s' disk dst (tg ++ [disk])); assumption.
  - intros x Hx Hxd. destruct (Hstands x) as (tw & Htw & Hxtw); [lia|].
    destruct (Z.eq_dec (peg_of s x) src) as [E|Esrc].
    + rewrite E in *. rewrite Hs in Htw. injection Htw as <-.
      apply elem_of_app in Hxtw as [Hxr|Hxd'].
      * apply (peg_of_unique s' x src rest); assumption.
      * apply list_elem_of_singleton in Hxd'. contradiction.
    + destruct (Z.eq_dec (peg_of s x) dst) as [E|Edst].
      * rewrite E in *. rewrite Ht in Htw. injection Htw as <-.
        eapply peg_of_unique; [exact Hws'|exact Hd'|].
        apply elem_of_app. left. assumption.
      * eapply peg_of_unique; [exact Hws'| |exact Hxtw].
        cbn [towers s']. rewrite relocated_other by assumption. exact Htw.
  - intros x Hx. destruct (Hstands x) as (tw & Htw & Hxtw); [lia|]. split.
    + intros E. rewrite E, Hs in Htw. injection Htw as <-.
      apply elem_of_app in Hxtw as [Hxr|Hxd'].
      * pose proof (strictly_decreasing_snoc_above _ _ _ Hsd Hxr). lia.
      * apply list_elem_of_singleton in Hxd'. lia.
    + intros E. rewrite E, Ht in Htw. injection Htw as <-.
      pose proof (strictly_decreasing_snoc_above _ _ _ Hsd' Hxtw). lia.
  - exact Htarget.
Qed.

Lemma distance_performMoves (moves : list (Z * Z)) (s : t) (target : Z) :
  well_stacked s -> 0 <= target <= 2 ->
  distance (peg_of s) (Z.to_nat (numDisks s)) target <=
  distance (peg_of (after (performMoves moves) s))
    (Z.to_nat (numDisks s)) target
  + (moveCount (after (performMoves moves) s) - moveCount s).
Proof.
  revert s. induction moves as [|[from to] moves IH]; intros s Hws Ht.
  - unfold after. simpl. lia.
  - rewrite performMoves_cons.
    pose proof (distance_performMove s from to target Hws Ht) as H1.
    pose proof (performMove_keeps_well_stacked s from to Hws) as Hws1.
    specialize (IH _ Hws1 Ht).
    rewrite performMove_keeps_numDisks in IH. lia.
Qed.

(** ** No game is won in fewer moves than [getOptimalMoves] says *)

Lemma distance_at_start (d : Z) (s0 : t) :
  distance (peg_of (after (init d) s0))
    (Z.to_nat (numDisks (after (init d) s0))) 2 =
  2 ^ numDisks (after (init d) s0) - 1.
Proof.
  unfold after. rewrite init_eq. cbn [snd numDisks].
  set (n := Z.max 1 (Z.min 15 d)).
  rewrite (distance_all_on _ _ 0 2); try lia.
  - simpl. rewrite Z2Nat.id by lia. reflexivity.
  - intros x Hx. unfold peg_of. cbn [towers].
    rewrite bool_decide_eq_true_2; [reflexivity|].
    apply elem_of_reverse, elem_of_seqZ. lia.
Qed.

Lemma distance_at_goal (s : t) (k : nat) :
  towers s = [[]; []; reverse (seqZ 1 (numDisks s))] ->
  distance (peg_of s) k 2 = 0.
Proof.
  intros Htw. rewrite (distance_all_on _ _ 2 2); try lia; [reflexivity|].
  intros x _. unfold peg_of. rewrite Htw.
  rewrite !bool_decide_eq_false_2 by apply not_elem_of_nil. reflexivity.
Qed.

(** However the game is played from [init(d)] (any calls of [performMove],
    accepted or not, moves of a tower onto itself included), when
    [isGameWon] answers [true] the move count is at least what
    [getOptimalMoves] returns, 2^numDisks - 1. *)
Theorem winning_takes_optimal_moves (d : Z) (s0 : t) (moves : list (Z * Z)) :
  let s := after (performMoves moves) (after (init d) s0) in
  isGameWon s = (Ret true, s) ->
  exists optimal,
    getOptimalMoves s = (Ret optimal, s) /\
    optimal = 2 ^ numDisks s - 1 /\
    optimal <= moveCount s.
Proof.
  intros s Hwon. exists (2 ^ numDisks s - 1).
  split; [reflexivity|]. split; [reflexivity|].
  pose proof (well_stacked_init d s0) as Hws0.
  destruct (performMoves_keep_well_stacked moves _ Hws0) as [Hws Hnum].
  fold s in Hws, Hnum.
  assert (0 <= numDisks s) as Hn.
  { rewrite Hnum. unfold after. rewrite init_eq. simpl. lia. }
  apply (won_towers s Hws Hn) in Hwon.
  pose proof (distance_performMoves moves (after (init d) s0) 2 Hws0) as Hd.
  fold s in Hd. rewrite distance_at_start in Hd.
  rewrite (distance_at_goal s _ Hwon) in Hd.
  assert (moveCount (after (init d) s0) = 0) as Hzero.
  { unfold after. rewrite init_eq. reflexivity. }
  rewrite Hnum. lia.
Qed.

Lemma winning_takes_optimal_moves_witness :
  let s := after (performMoves [(0, 1); (1, 1); (1, 2)])
             (after (init 1) (new 4)) in
  exists optimal,
    getOptimalMoves s = (Ret optimal, s) /\
    optimal = 2 ^ numDisks s - 1 /\
    optimal <= moveCount s.
Proof.
  apply (winning_takes_optimal_moves 1 (new 4) [(0, 1); (1, 1); (1, 2)]).
  reflexivity.
Defined.

(** ** The generated solution takes exactly that many *)

Lemma successes_all_true (n : nat) : successes (repeat true n) = Z.of_nat n.
Proof. induction n as [|n IH]; simpl repeat; cbn [successes]; lia. Qed.

(** For every disk count in 1..15: after [init], [prepareSolution] and
    the generated moves played with [performMove], the move count equals
    [getOptimalMoves()] and [getTotalMoves()]: the solver wins in the
    fewest moves there are. *)
Theorem generated_solution_is_optimal
  (diskCount : Z) (fuel : nat) (sv : Solver.t) (s0 : t) :
  1 <= diskCount <= 15 -> (Z.to_nat diskCount <= fuel)%nat ->
  exists moves sv' s',
    Solver.prepareSolution fuel diskCount sv = (Ret moves, sv') /\
    after (performMoves moves) (after (init diskCount) s0) = s' /\
    isGameWon s' = (Ret true, s') /\
    getOptimalMoves s' = (Ret (moveCount s'), s') /\
    Solver.getTotalMoves sv' = (Ret (Z.to_nat (moveCount s')), sv').
Proof.
  intros Hd Hfuel.
  assert (exists k, diskCount = Z.of_nat (S k)) as [k ->].
  { exists (Z.to_nat diskCount - 1)%nat. lia. }
  set (start := after (init (Z.of_nat (S k))) s0).
  assert (towers start = [stack (S k); []; []] /\
          numDisks start = Z.of_nat (S k) /\ moveCount start = 0)
    as (Htw & Hnd & Hmc).
  { unfold start, after. rewrite init_eq.
    replace (Z.max 1 (Z.min 15 (Z.of_nat (S k)))) with (Z.of_nat (S k)) by lia.
    repeat split. }
  destruct (solution_plays k 0 2 1 start [] [] [])
    as (s' & Hplay & _ & Htarget & _ & Hnum); try lia;
    try (rewrite Htw; reflexivity); try (intros top Htop; discriminate).
  destruct (performMoves_count (Solver.solution k 0 2 1) start)
    as (oks & Hoks & _ & Hcount).
  rewrite Hplay in Hoks. injection Hoks as <- Hs'.
  rewrite <- Hs', successes_all_true, solution_length, Hmc in Hcount.
  exists (Solver.solution k 0 2 1),
    (Solver.mk (Solver.solution k 0 2 1) 0 (Solver.timer sv)), s'.
  split; [apply prepareSolution_enough; lia|].
  split; [symmetry; exact Hs'|]. split; [|split].
  - unfold isGameWon, bind, gets. rewrite Htarget. simpl. unfold ret.
    rewrite Hnum, Hnd. unfold stack.
    rewrite length_reverse, length_seqZ.
    destruct (Z.eqb_spec (Z.of_nat (Z.to_nat (Z.of_nat (S k))))
                (Z.of_nat (S k))); [reflexivity|lia].
  - unfold getOptimalMoves, gets. rewrite Hnum, Hnd, Hcount.
    replace (0 + (2 ^ Z.of_nat (S k) - 1)) with (2 ^ Z.of_nat (S k) - 1) by lia.
    reflexivity.
  - unfold Solver.getTotalMoves, gets. cbn [Solver.moves]. rewrite Hcount.
    pose proof (solution_length k 0 2 1) as Hl.
    replace (Z.to_nat (0 + (2 ^ Z.of_nat (S k) - 1)))
      with (length (Solver.solution k 0 2 1)) by lia.
    reflexivity.
Qed.

Lemma generated_solution_is_optimal_witness :
  exists moves sv' s',
    Solver.prepareSolution 3 3 Solver.new = (Ret moves, sv') /\
    after (performMoves moves) (after (init 3) (new 4)) = s' /\
    isGameWon s' = (Ret true, s') /\
    getOptimalMoves s' = (Ret (moveCount s'), s') /\
    Solver.getTotalMoves sv' = (Ret (Z.to_nat (moveCount s')), sv').
Proof. apply (generated_solution_is_optimal 3 3 Solver.new (new 4)); lia. Defined.

End OptimalityProps.

(** * Further properties of the solver *)

Module SolverTraversalProps.

Import SolverProps Play.

(** ** The call stack [generateSolution] needs *)

Lemma generateSolution_shallow (fuel k : nat) (from to aux : Z)
  (moves : list Solver.move) :
  (fuel < S k)%nat ->
  Solver.generateSolution fuel (Z.of_nat (S k)) from to aux moves =
  (Throw RangeError, moves).
Proof.
  revert k from to aux moves.
  induction fuel as [|fuel IH]; intros k from to aux moves Hf; [reflexivity|].
  destruct k as [|k]; [lia|].
  cbn [Solver.generateSolution].
  destruct (Z.eqb_spec (Z.of_nat (S (S k))) 1) as [H1|_]; [lia|].
  replace (Z.of_nat (S (S k)) - 1) with (Z.of_nat (S k)) by lia.
  unfold bind at 1. rewrite IH by lia. reflexivity.
Qed.


Lemma prepareSolution_shallow (fuel k : nat) (sv : Solver.t) :
  (fuel < S k)%nat ->
  Solver.prepareSolution fuel (Z.of_nat (S k)) sv =
    (Throw RangeError, Solver.mk [] 0 (Solver.timer sv)).
Proof.
  intros Hf.
  unfold Solver.prepareSolution, Solver.on_moves, bind, modify. simpl.
  rewrite generateSolution_shallow by lia. reflexivity.
Qed.

(** ** The moves that are generated *)

Lemma solution_proper (k : nat) (from to aux : Z) :
  from <> to -> from <> aux -> to <> aux ->
  0 <= from <= 2 -> 0 <= to <= 2 -> 0 <= aux <= 2 ->
  Forall proper_move (Solver.solution k from to aux).
Proof.
  revert from to aux.
  induction k as [|k IH]; intros from to aux Hft Hfa Hta Hf Ht Ha;
    cbn [Solver.solution].
  - constructor; [unfold proper_move; simpl; lia|constructor].
  - apply Forall_app. split; [apply IH; auto|].
    apply Forall_app. split; [|apply IH; auto].
    constructor; [unfold proper_move; simpl; lia|constructor].
Qed.

(** Every move [prepareSolution] returns goes from one of the towers 0, 1,
    2 to a different one of them: the solver never asks for a move of a
    tower onto itself, nor for a tower that is not there. *)
Theorem generated_moves_are_proper
  (fuel : nat) (n : Z) (sv sv' : Solver.t) (moves : list Solver.move) :
  Solver.prepareSolution fuel n sv = (Ret moves, sv') ->
  Forall proper_move moves.
Proof.
  intros Hprep.
  destruct (Z.le_gt_cases n 0) as [H0|H0].
  { revert Hprep.
    unfold Solver.prepareSolution, Solver.on_moves, bind, modify. simpl.
    rewrite generateSolution_below_one by assumption. discriminate. }
  assert (exists k, n = Z.of_nat (S k)) as [k ->].
  { exists (Z.to_nat n - 1)%nat. lia. }
  destruct (Nat.le_gt_cases (S k) fuel) as [Hf|Hf].
  - rewrite prepareSolution_enough in Hprep by assumption.
    injection Hprep as <- _. apply solution_proper; lia.
  - revert Hprep.
    unfold Solver.prepareSolution, Solver.on_moves, bind, modify. simpl.
    rewrite generateSolution_shallow by lia. discriminate.
Qed.

Lemma generated_moves_are_proper_witness :
  Forall proper_move [(0, 1); (0, 2); (1, 2)].
Proof.
  apply (generated_moves_are_proper 2 2 Solver.new
           (Solver.mk [(0, 1); (0, 2); (1, 2)] 0 None)).
  reflexivity.
Defined.

(** ** Going through the moves *)

Lemma getNextMove_eq (sv : Solver.t) :
  Solver.getNextMove sv =
  (Ret (Solver.moves sv !! Solver.currentMoveIndex sv),
   Solver.mk (Solver.moves sv)
     (if (length (Solver.moves sv) <=? Solver.currentMoveIndex sv)%nat
      then Solver.currentMoveIndex sv
      else S (Solver.currentMoveIndex sv))
     (Solver.timer sv)).
Proof.
  unfold Solver.getNextMove, bind, gets, modify, ret, throw. simpl.
  destruct (Nat.leb_spec (length (Solver.moves sv))
              (Solver.currentMoveIndex sv)) as [Hle|Hlt].
  - rewrite (lookup_ge_None_2 _ _ Hle). destruct sv; reflexivity.
  - destruct (_ !! _) as [[from to]|] eqn:Hmv; [reflexivity|].
    apply lookup_ge_None in Hmv. unfold Solver.move in *. lia.
Qed.

Lemma lookups_past_end {A} (l : list A) (a k : nat) :
  (length l <= a)%nat -> map (fun j => l !! j) (seq a k) = repeat None k.
Proof.
  revert a. induction k as [|k IH]; intros a Ha; [reflexivity|].
  simpl. rewrite lookup_ge_None_2 by lia. f_equal. apply IH. lia.
Qed.

Lemma getNextMoves_eq (k : nat) (sv : Solver.t) :
  getNextMoves k sv =
  (Ret (map (fun j => Solver.moves sv !! j)
          (seq (Solver.currentMoveIndex sv) k)),
   Solver.mk (Solver.moves sv)
     (Nat.max (Solver.currentMoveIndex sv)
        (Nat.min (Solver.currentMoveIndex sv + k) (length (Solver.moves sv))))
     (Solver.timer sv)).
Proof.
  revert sv. induction k as [|k IH]; intros [ms i tm].
  - simpl. unfold ret. do 2 f_equal. lia.
  - cbn [getNextMoves]. unfold bind at 1. rewrite getNextMove_eq.
    unfold bind at 1. rewrite IH. unfold ret. cbn [Solver.moves
      Solver.currentMoveIndex Solver.timer seq map].
    destruct (Nat.leb_spec (length ms) i) as [Hle|Hlt].
    + do 2 f_equal; [|lia]. f_equal.
      rewrite !lookups_past_end by lia. reflexivity.
    + do 2 f_equal. lia.
Qed.

(** [getNextMove()] called again and again on a solver whose cursor is at
    0 hands out the moves in their order, one per call, and [null] once
    they are used up; it never throws, never changes the moves, and the
    cursor stops at their number. *)
Theorem getNextMove_hands_out_moves_in_order
  (moves : list Solver.move) (timer : option positive) (k : nat) :
  getNextMoves k (Solver.mk moves 0 timer) =
  (Ret (map Some (take k moves) ++ repeat None (k - length moves)),
   Solver.mk moves (Nat.min k (length moves)) timer).
Proof.
  rewrite getNextMoves_eq. cbn [Solver.moves Solver.currentMoveIndex
    Solver.timer].
  replace (Nat.max 0 (Nat.min (0 + k) (length moves)))
    with (Nat.min k (length moves)) by lia.
  do 2 f_equal.
  revert moves. induction k as [|k IH]; intros moves; [reflexivity|].
  destruct moves as [|mv moves].
  - rewrite lookups_past_end by (simpl; lia). reflexivity.
  - cbn [seq map take length Nat.sub app]. f_equal.
    rewrite <- IH, <- seq_shift, map_map. reflexivity.
Qed.

(** [hasMoreMoves()] says whether the next [getNextMove()] hands out a
    move: when it is [true] the move at the cursor is returned and the
    cursor advances by one; when it is [false], [getNextMove()] returns
    [null] and leaves the solver as it is. *)
Theorem hasMoreMoves_announces_next (sv : Solver.t) :
  exists more,
    Solver.hasMoreMoves sv = (Ret more, sv) /\
    (more = true ->
     exists mv,
       Solver.moves sv !! Solver.currentMoveIndex sv = Some mv /\
       Solver.getNextMove sv =
         (Ret (Some mv),
          Solver.mk (Solver.moves sv) (S (Solver.currentMoveIndex sv))
            (Solver.timer sv))) /\
    (more = false -> Solver.getNextMove sv = (Ret None, sv)).
Proof.
  eexists. split; [reflexivity|]. rewrite getNextMove_eq.
  destruct (Nat.ltb_spec (Solver.currentMoveIndex sv)
              (length (Solver.moves sv))) as [Hlt|Hge].
  - split; [intros _|discriminate].
    destruct (lookup_lt_is_Some_2 _ _ Hlt) as [mv Hmv].
    exists mv. split; [exact Hmv|]. rewrite Hmv.
    destruct (Nat.leb_spec (length (Solver.moves sv))
                (Solver.currentMoveIndex sv)); [lia|reflexivity].
  - split; [discriminate|intros _].
    rewrite (lookup_ge_None_2 _ _ Hge).
    destruct (Nat.leb_spec (length (Solver.moves sv))
                (Solver.currentMoveIndex sv)); [|lia].
    destruct sv; reflexivity.
Qed.

End SolverTraversalProps.

(** * Further properties of the timed playback *)

Module PlaybackDeliveryProps.

Import Playback PlaybackProps SolverTraversalProps Play.

Lemma execs_app (es1 es2 : list event) (w : world) :
  execs (es1 ++ es2) w = execs es2 (execs es1 w).
Proof. unfold execs. apply foldl_app. Qed.

Lemma start_playing (moves : list Solver.move) (timer : option positive)
  (h : positive) :
  startAutoPlay both (idle (Solver.mk moves 0 timer) h) = playing moves h 0 [].
Proof.
  unfold startAutoPlay, setInterval, set_solver_of, idle, playing. simpl.
  rewrite insert_empty. reflexivity.
Qed.

Lemma tick_playing (moves : list Solver.move) (h : positive) (k : nat)
  (cs : list called) (mv : Solver.move) :
  moves !! k = Some mv ->
  tick h (playing moves h k cs) = playing moves h (S k) (cs ++ [move_call h mv]).
Proof.
  intros Hmv. unfold tick, playing. cbn [intervals].
  rewrite lookup_singleton_eq. unfold tick_body. cbn [solver].
  rewrite getNextMove_eq. cbn [Solver.moves Solver.currentMoveIndex
    Solver.timer]. rewrite Hmv.
  apply lookup_lt_Some in Hmv.
  destruct (Nat.leb_spec (length moves) k); [lia|].
  destruct mv as [from to]. reflexivity.
Qed.

Lemma tick_completes (moves : list Solver.move) (h : positive) (k : nat)
  (cs : list called) :
  (length moves <= k)%nat ->
  tick h (playing moves h k cs) = played h (cs ++ [OnComplete h]).
Proof.
  intros Hk. unfold tick, playing. cbn [intervals].
  rewrite lookup_singleton_eq. unfold tick_body. cbn [solver].
  rewrite getNextMove_eq. cbn [Solver.moves Solver.currentMoveIndex
    Solver.timer]. rewrite (lookup_ge_None_2 _ _ Hk).
  destruct (Nat.leb_spec (length moves) k); [|lia].
  rewrite stop_eq. unfold played, record_call, set_solver_of. simpl.
  rewrite delete_singleton_eq. reflexivity.
Qed.

Lemma ticks_played (h : positive) (k : nat) (cs : list called) :
  execs (repeat (Tick h) k) (played h cs) = played h cs.
Proof.
  induction k as [|k IH]; [reflexivity|].
  unfold execs in *. cbn [repeat foldl exec]. unfold tick.
  unfold played at 1 2. cbn [intervals]. rewrite lookup_empty. exact IH.
Qed.

Lemma ticks_playing (moves : list Solver.move) (h : positive) (k : nat) :
  (k <= length moves)%nat ->
  execs (repeat (Tick h) k) (playing moves h 0 []) =
  playing moves h k (map (move_call h) (take k moves)).
Proof.
  induction k as [|k IH]; intros Hk; [reflexivity|].
  cbn [repeat]. rewrite repeat_cons, execs_app, IH by lia.
  destruct (lookup_lt_is_Some_2 moves k) as [mv Hmv]; [lia|].
  unfold execs. cbn [foldl exec].
  rewrite (tick_playing _ _ _ _ _ Hmv), (take_S_r _ _ _ Hmv), map_app.
  reflexivity.
Qed.

(** One playback: after [startAutoPlay] on a solver that holds [moves]
    with the cursor at 0 and is not running, the first k ticks call
    [onMove] with the first k moves, in their order, one per tick; the
    tick after the last move stops the solver (no interval left, moves
    and cursor reset) and calls [onComplete]; later ticks do nothing. *)
Theorem playback_delivers_moves_in_order
  (moves : list Solver.move) (timer : option positive) (h : positive)
  (k : nat) :
  execs (StartAutoPlay both :: repeat (Tick h) k)
    (idle (Solver.mk moves 0 timer) h) =
  if (k <=? length moves)%nat
  then playing moves h k (map (move_call h) (take k moves))
  else played h (map (move_call h) moves ++ [OnComplete h]).
Proof.
  change (StartAutoPlay both :: repeat (Tick h) k)
    with ([StartAutoPlay both] ++ repeat (Tick h) k).
  rewrite execs_app. unfold execs at 2. cbn [foldl exec].
  rewrite start_playing.
  destruct (Nat.leb_spec k (length moves)) as [Hle|Hgt].
  - apply ticks_playing, Hle.
  - replace k with (length moves + (1 + (k - length moves - 1)))%nat by lia.
    rewrite !repeat_app, !execs_app, ticks_playing by lia.
    rewrite take_ge by lia. unfold execs at 2. cbn [repeat foldl exec].
    rewrite tick_completes by lia. apply ticks_played.
Qed.

(** Cancelling: when [stop()] is called after k ticks of a playback, with
    moves still left, exactly the first k moves have been handed to
    [onMove], [onComplete] is never called, the solver is reset and not
    running, and no later tick changes that. *)
Theorem stop_cancels_playback
  (moves : list Solver.move) (timer : option positive) (h : positive)
  (k later : nat) :
  (k <= length moves)%nat ->
  execs (StartAutoPlay both :: repeat (Tick h) k ++ Stop :: repeat (Tick h) later)
    (idle (Solver.mk moves 0 timer) h) =
  played h (map (move_call h) (take k moves)).
Proof.
  intros Hk.
  change (StartAutoPlay both :: repeat (Tick h) k ++ Stop :: repeat (Tick h) later)
    with ([StartAutoPlay both]
            ++ repeat (Tick h) k ++ [Stop] ++ repeat (Tick h) later).
  rewrite !execs_app. unfold execs at 4. cbn [foldl exec].
  rewrite start_playing, ticks_playing by assumption.
  unfold execs at 2. cbn [foldl exec]. rewrite stop_eq.
  unfold playing. cbn [solver intervals nextHandle calls Solver.timer].
  rewrite delete_singleton_eq. apply ticks_played.
Qed.

Lemma stop_cancels_playback_witness :
  execs (StartAutoPlay both
           :: repeat (Tick 1%positive) 2 ++ Stop :: repeat (Tick 1%positive) 3)
    (idle (Solver.mk [(0, 1); (0, 2); (1, 2)] 0 None) 1%positive) =
  played 1%positive
    (map (move_call 1%positive) (take 2 [(0, 1); (0, 2); (1, 2)])).
Proof.
  apply (stop_cancels_playback [(0, 1); (0, 2); (1, 2)] None 1%positive 2 3).
  simpl. lia.
Defined.

(** [stop()] is safe to call at any time and as often as wished: it always
    leaves the solver reset and not running, a second call changes
    nothing, and with no playback running it touches no interval and
    calls nothing. *)
Theorem stop_is_idempotent (w : world) :
  stop (stop w) = stop w /\
  solver (stop w) = Solver.mk [] 0 None /\
  calls (stop w) = calls w /\
  (Solver.timer (solver w) = None -> intervals (stop w) = intervals w).
Proof.
  rewrite !stop_eq. cbn [solver intervals nextHandle calls Solver.timer].
  repeat split. intros ->. reflexivity.
Qed.

End PlaybackDeliveryProps.

(** * Properties of the controller *)

Module ControllerProps.

Import GameState GameStateProps Controller.

(** ** Running the methods *)

Lemma on_state_run {A} (m : M GameState.t A) (c : Controller.t)
  (r : outcome A) (s' : GameState.t) :
  m (state c) = (r, s') ->
  on_state m c = (r, Controller.mk s' (view c) (player c)).
Proof. intros H. unfold on_state. rewrite H. reflexivity. Qed.

Lemma on_state_mk {A} (m : M GameState.t A) s v p
  (r : outcome A) (s' : GameState.t) :
  m s = (r, s') ->
  on_state m (Controller.mk s v p) = (r, Controller.mk s' v p).
Proof. apply (on_state_run m (Controller.mk s v p)). Qed.

Lemma bind_ret {S A B} (m : M S A) (k : A -> M S B) (s s' : S) (a : A) :
  m s = (Ret a, s') -> bind m k s = k a s'.
Proof. intros H. unfold bind. rewrite H. reflexivity. Qed.

Lemma bind_throw {S A B} (m : M S A) (k : A -> M S B) (s s' : S) e :
  m s = (Throw e, s') -> bind m k s = (Throw e, s').
Proof. intros H. unfold bind. rewrite H. reflexivity. Qed.

Lemma updateDisplay_eq (c : Controller.t) :
  updateDisplay c =
  (Ret tt, Controller.mk (state c) (display (state c) (view c)) (player c)).
Proof. destruct c as [s v p]. reflexivity. Qed.

Lemma init_small (n : Z) (s : GameState.t) :
  1 <= n <= 15 ->
  GameState.init n s =
  (Ret tt, GameState.mk [reverse (seqZ 1 n); []; []] n 0 None false).
Proof.
  intros Hn. rewrite init_eq.
  replace (Z.max 1 (Z.min 15 n)) with n by lia. reflexivity.
Qed.

(** The state of a new game with [n] disks, and the page that shows it. *)
Lemma initGame_eq (c : Controller.t) :
  let n := View.getDiskCountValue (view c) in
  let s := GameState.mk [reverse (seqZ 1 n); []; []] n 0 None false in
  initGame c =
  (Ret tt,
   Controller.mk s
     (View.mk (Some n) false (View.Instructions, View.Normal)
        0 (2 ^ n - 1) (towers s) None)
     (Playback.stop (player c))).
Proof.
  intros n s. destruct c as [s0 v p].
  assert (1 <= n <= 15) as Hn by (unfold n, View.getDiskCountValue; lia).
  unfold initGame.
  unfold bind at 1. unfold on_player at 1, modify at 1.
  unfold bind at 1. unfold on_state at 1, setAutoSolving at 1, modify at 1.
  unfold bind at 1. unfold on_view at 1, modify at 1.
  unfold bind at 1. unfold gets at 1. cbn [view state player].
  fold n.
  unfold bind at 1. unfold on_view at 1, modify at 1. cbn [view state player].
  unfold bind at 1. unfold on_state at 1. cbn [view state player].
  rewrite (init_small n _ Hn).
  unfold bind at 1. rewrite updateDisplay_eq.
  reflexivity.
Qed.

Lemma isGameWon_eq (s : GameState.t) :
  length (towers s) = 3%nat -> isGameWon s = (Ret (won s), s).
Proof.
  intros Hlen. unfold isGameWon, won, bind, gets, ret.
  destruct (index (towers s) 2) as [tower|] eqn:Htw; [reflexivity|].
  apply index_None_range in Htw. lia.
Qed.

Lemma checkWin_eq (c : Controller.t) :
  length (towers (state c)) = 3%nat ->
  checkWin c =
  (Ret tt,
   Controller.mk (state c) (announce_win (state c) (view c)) (player c)).
Proof.
  intros Hlen. destruct c as [s v p]. cbn [state view player] in *.
  unfold checkWin. unfold bind at 1.
  rewrite (on_state_mk _ _ _ _ _ _ (isGameWon_eq s Hlen)). cbn [state view player].
  unfold announce_win. destruct (won s); reflexivity.
Qed.

Lemma performMove_rejected (c : Controller.t) (src dst : Z)
  (fromSolver skipCheckWin skipMessage : bool) :
  valid (verdict_of (state c) src dst) = false ->
  Controller.performMove src dst fromSolver skipCheckWin skipMessage c =
  (Ret false,
   Controller.mk (state c)
     (if fromSolver then view c
      else View.setMessage
             (View.Rejected (error (verdict_of (state c) src dst)))
             View.Error (view c))
     (player c)).
Proof.
  intros Hv. destruct c as [s v p]. cbn [state view player] in *.
  unfold Controller.performMove. unfold bind at 1.
  rewrite (on_state_mk _ _ _ _ _ _ (canMove_eq s src dst)). rewrite Hv.
  destruct fromSolver; reflexivity.
Qed.

Lemma performMove_accepted (c : Controller.t) (src dst : Z)
  (fromSolver skipCheckWin skipMessage : bool) :
  length (towers (state c)) = 3%nat ->
  valid (verdict_of (state c) src dst) = true ->
  Controller.performMove src dst fromSolver skipCheckWin skipMessage c =
  (Ret true,
   Controller.mk (after (GameState.performMove src dst) (state c))
     (view_after_move skipCheckWin skipMessage
        (after (GameState.performMove src dst) (state c)) (view c))
     (player c)).
Proof.
  intros Hlen Hv. destruct c as [s v p]. cbn [state view player] in *.
  unfold Controller.performMove. unfold bind at 1.
  rewrite (on_state_mk _ _ _ _ _ _ (canMove_eq s src dst)). rewrite Hv.
  cbn [negb state view player].
  destruct (performMove_returns s src dst) as [ok Hok].
  unfold bind at 1. rewrite (on_state_mk _ _ _ _ _ _ Hok). cbn [state view player].
  set (s' := after (GameState.performMove src dst) s).
  assert (length (towers s') = 3%nat) as Hlen'.
  { unfold s', after.
    destruct (performMove_valid s src dst Hv) as (? & ? & ? & _ & _ & ->).
    cbn [snd towers]. unfold relocated. rewrite !length_assign. exact Hlen. }
  unfold bind at 1. rewrite updateDisplay_eq. cbn [state view player].
  unfold view_after_move.
  destruct skipMessage, skipCheckWin; cbn [negb when];
    unfold bind, on_view, modify, ret; cbn [state view player];
    try reflexivity;
    rewrite checkWin_eq by exact Hlen'; reflexivity.
Qed.

(** ** A click on a tower, case by case *)

Lemma click_ignored (c : Controller.t) (i : Z) :
  autoSolving (state c) = true -> handleTowerClick i c = (Ret tt, c).
Proof.
  destruct c as [[tw nd mc sel auto] v p]. cbn [state autoSolving].
  intros ->. reflexivity.
Qed.

Lemma click_outside (c : Controller.t) (i : Z) :
  autoSolving (state c) = false -> selectedTowerIndex (state c) = None ->
  index (towers (state c)) i = None ->
  handleTowerClick i c = (Throw TypeError, c).
Proof.
  destruct c as [[tw nd mc sel auto] v p].
  cbn [state autoSolving selectedTowerIndex towers]. intros -> -> Hi.
  unfold handleTowerClick, bind, on_state, isAutoSolving,
    getSelectedTowerIndex, getTowers, gets. cbn. rewrite Hi. reflexivity.
Qed.

Lemma click_empty (c : Controller.t) (i : Z) :
  autoSolving (state c) = false -> selectedTowerIndex (state c) = None ->
  index (towers (state c)) i = Some [] ->
  handleTowerClick i c =
  (Ret tt,
   Controller.mk (state c)
     (View.setMessage View.NoDisksHere View.Error (view c)) (player c)).
Proof.
  destruct c as [[tw nd mc sel auto] v p].
  cbn [state view player autoSolving selectedTowerIndex towers].
  intros -> -> Hi.
  unfold handleTowerClick, bind, on_state, isAutoSolving,
    getSelectedTowerIndex, getTowers, gets. cbn. rewrite Hi. reflexivity.
Qed.

Lemma click_arms (c : Controller.t) (i : Z) (rest : list Z) (disk : Z) :
  autoSolving (state c) = false -> selectedTowerIndex (state c) = None ->
  index (towers (state c)) i = Some (rest ++ [disk]) ->
  handleTowerClick i c =
  (Ret tt,
   Controller.mk (after (selectTower (Some i)) (state c))
     (View.render (towers (state c)) (Some i)
        (View.setMessage (View.TowerChosen (i + 1)) View.Normal (view c)))
     (player c)).
Proof.
  destruct c as [[tw nd mc sel auto] v p].
  cbn [state view player autoSolving selectedTowerIndex towers].
  intros -> -> Hi.
  unfold handleTowerClick, bind, on_state, isAutoSolving,
    getSelectedTowerIndex, getTowers, gets. cbn. rewrite Hi.
  rewrite length_app. cbn [length].
  destruct (Z.eqb_spec (Z.of_nat (length rest + 1)) 0) as [H0|_]; [lia|].
  reflexivity.
Qed.

Lemma click_same (c : Controller.t) (i : Z) :
  autoSolving (state c) = false -> selectedTowerIndex (state c) = Some i ->
  handleTowerClick i c =
  (Ret tt,
   Controller.mk (after (selectTower None) (state c))
     (View.render (towers (state c)) None
        (View.setMessage View.ChoiceCancelled View.Normal (view c)))
     (player c)).
Proof.
  destruct c as [[tw nd mc sel auto] v p].
  cbn [state view player autoSolving selectedTowerIndex towers].
  intros -> ->.
  unfold handleTowerClick, bind, on_state, isAutoSolving,
    getSelectedTowerIndex, getTowers, gets. cbn -[Z.eqb].
  rewrite Z.eqb_refl. reflexivity.
Qed.

Lemma click_rejected (c : Controller.t) (selected i : Z) :
  autoSolving (state c) = false ->
  selectedTowerIndex (state c) = Some selected -> selected <> i ->
  valid (verdict_of (state c) selected i) = false ->
  handleTowerClick i c =
  (Ret tt,
   Controller.mk (after (selectTower None) (state c))
     (View.render (towers (state c)) None
        (View.setMessage
           (View.Rejected (error (verdict_of (state c) selected i)))
           View.Error (view c)))
     (player c)).
Proof.
  intros Hauto Hsel Hne Hv.
  pose proof (performMove_rejected c selected i false false false Hv) as Hp.
  destruct c as [[tw nd mc sel auto] v p].
  cbn [state view player autoSolving selectedTowerIndex towers] in *.
  subst auto sel.
  unfold handleTowerClick.
  unfold bind at 1, on_state at 1, isAutoSolving, gets. cbn [state view player
    autoSolving].
  unfold bind at 1, on_state at 1, getSelectedTowerIndex, gets.
  cbn [state view player selectedTowerIndex].
  unfold bind at 1, on_state at 1, getTowers, gets.
  cbn [state view player towers].
  destruct (Z.eqb_spec selected i) as [E|_]; [contradiction|].
  unfold bind at 1. rewrite Hp. reflexivity.
Qed.

Lemma click_moves (c : Controller.t) (selected i : Z) :
  length (towers (state c)) = 3%nat ->
  autoSolving (state c) = false ->
  selectedTowerIndex (state c) = Some selected -> selected <> i ->
  valid (verdict_of (state c) selected i) = true ->
  handleTowerClick i c =
  (Ret tt,
   Controller.mk
     (after (selectTower None)
        (after (GameState.performMove selected i) (state c)))
     (view_after_move false false
        (after (GameState.performMove selected i) (state c)) (view c))
     (player c)).
Proof.
  intros Hlen Hauto Hsel Hne Hv.
  pose proof (performMove_accepted c selected i false false false Hlen Hv)
    as Hp.
  destruct c as [[tw nd mc sel auto] v p].
  cbn [state view player autoSolving selectedTowerIndex towers] in *.
  subst auto sel.
  unfold handleTowerClick.
  unfold bind at 1, on_state at 1, isAutoSolving, gets. cbn [state view player
    autoSolving].
  unfold bind at 1, on_state at 1, getSelectedTowerIndex, gets.
  cbn [state view player selectedTowerIndex].
  unfold bind at 1, on_state at 1, getTowers, gets.
  cbn [state view player towers].
  destruct (Z.eqb_spec selected i) as [E|_]; [contradiction|].
  unfold bind at 1. rewrite Hp. reflexivity.
Qed.

(** ** What the handlers keep *)

Lemma performMove_fields (s : GameState.t) (src dst : Z) :
  numDisks (after (GameState.performMove src dst) s) = numDisks s /\
  autoSolving (after (GameState.performMove src dst) s) = autoSolving s /\
  selectedTowerIndex (after (GameState.performMove src dst) s)
    = selectedTowerIndex s /\
  moveCount s <= moveCount (after (GameState.performMove src dst) s)
    <= moveCount s + 1.
Proof.
  unfold after. destruct (valid (verdict_of s src dst)) eqn:Hv.
  - destruct (performMove_valid s src dst Hv) as (? & ? & ? & _ & _ & ->).
    simpl. repeat split; lia.
  - rewrite performMove_invalid by assumption. simpl. repeat split; lia.
Qed.

Lemma view_after_move_current (w m : bool) (s : GameState.t) (v : View.t) :
  View.towersShown (view_after_move w m s v) = towers s /\
  View.movesShown (view_after_move w m s v) = moveCount s /\
  View.optimalShown (view_after_move w m s v) = 2 ^ numDisks s - 1 /\
  View.solverControls (view_after_move w m s v) = View.solverControls v /\
  View.diskCountInput (view_after_move w m s v) = View.diskCountInput v.
Proof.
  unfold view_after_move, announce_win.
  destruct w, m, (won s); repeat split.
Qed.

(** No interval is registered but the one the solver holds. *)
Lemma stop_leaves_none (p : Playback.world) (h : positive) :
  (forall h', is_Some (Playback.intervals p !! h') ->
              Solver.timer (Playback.solver p) = Some h') ->
  Playback.intervals (Playback.stop p) !! h = None.
Proof.
  intros Hreg. rewrite PlaybackProps.stop_eq. cbn [Playback.intervals].
  destruct (Solver.timer (Playback.solver p)) as [h0|] eqn:Htimer.
  - destruct (decide (h0 = h)) as [->|Hne].
    + apply lookup_delete_eq.
    + rewrite lookup_delete_ne by assumption.
      destruct (Playback.intervals p !! h) eqn:E; [|reflexivity].
      assert (is_Some (Playback.intervals p !! h)) as Hs by (rewrite E; eauto).
      apply Hreg in Hs. congruence.
  - destruct (Playback.intervals p !! h) eqn:E; [|reflexivity].
    assert (is_Some (Playback.intervals p !! h)) as Hs by (rewrite E; eauto).
    apply Hreg in Hs. congruence.
Qed.

Lemma well_stacked_towers (s s' : GameState.t) :
  towers s' = towers s -> numDisks s' = numDisks s ->
  well_stacked s -> well_stacked s'.
Proof. unfold well_stacked. intros -> ->. tauto. Qed.

Lemma well_stacked_fresh (n : Z) :
  well_stacked (GameState.mk [reverse (seqZ 1 n); []; []] n 0 None false).
Proof.
  split; [reflexivity|]. split.
  - repeat constructor. apply GamePlayProps.strictly_decreasing_stack.
  - simpl. rewrite app_nil_r. apply reverse_Permutation.
Qed.

Lemma consistent_initGame (c : Controller.t) :
  (forall h, is_Some (Playback.intervals (player c) !! h) ->
             Solver.timer (Playback.solver (player c)) = Some h) ->
  consistent (snd (initGame c)).
Proof.
  intros Hreg. pose proof (initGame_eq c) as H. cbv zeta in H. rewrite H.
  cbn [snd]. clear H.
  assert (1 <= View.getDiskCountValue (view c) <= 15) as Hn
    by (unfold View.getDiskCountValue; lia).
  split; [apply well_stacked_fresh|]. split; [exact Hn|].
  split; [simpl; lia|]. split; [repeat split|]. split.
  - cbn [state player autoSolving]. split; [|split].
    + rewrite PlaybackProps.stop_eq. reflexivity.
    + intros h [cb Hcb]. cbn [player] in Hcb.
      pose proof (stop_leaves_none (player c) h Hreg) as Hnone. congruence.
    + intros h Hh. rewrite PlaybackProps.stop_eq in Hh. discriminate.
  - intros i Hi. discriminate.
Qed.

Lemma consistent_same_player (c : Controller.t) s' v' :
  consistent c ->
  well_stacked s' -> numDisks s' = numDisks (state c) ->
  0 <= moveCount s' -> autoSolving s' = autoSolving (state c) ->
  view_current (Controller.mk s' v' (player c)) ->
  selection_armed (Controller.mk s' v' (player c)) ->
  consistent (Controller.mk s' v' (player c)).
Proof.
  intros (_ & Hn & _ & _ & (Hauto & Hreg & Hrun) & _) Hws Hnum Hmc Ha Hv Hs.
  split; [exact Hws|]. split; [cbn [state]; rewrite Hnum; exact Hn|].
  split; [exact Hmc|]. split; [exact Hv|]. split; [|exact Hs].
  split; [cbn [state player]; rewrite Ha; exact Hauto|].
  split; assumption.
Qed.

Lemma consistent_click (c : Controller.t) (i : Z) :
  consistent c -> consistent (snd (handleTowerClick i c)).
Proof.
  intros Hc. pose proof Hc as (Hws & Hn & Hmc & Hview & Hsolver & Hsel).
  pose proof Hview as (Hv1 & Hv2 & Hv3 & Hv4 & Hv5).
  destruct (autoSolving (state c)) eqn:Hauto.
  { rewrite click_ignored by assumption. exact Hc. }
  destruct (selectedTowerIndex (state c)) as [sel|] eqn:Hs.
  - destruct (Z.eq_dec sel i) as [->|Hne].
    + rewrite click_same by assumption. cbn [snd].
      apply (consistent_same_player c _ _ Hc).
      * eapply well_stacked_towers; [| |exact Hws]; reflexivity.
      * reflexivity.
      * exact Hmc.
      * reflexivity.
      * repeat split; try assumption; cbn; congruence.
      * intros j Hj. discriminate.
    + destruct (valid (verdict_of (state c) sel i)) eqn:Hv.
      * rewrite (click_moves c sel i) by (try assumption; apply Hws).
        cbn [snd].
        pose proof (performMove_fields (state c) sel i)
          as (Hf1 & Hf2 & Hf3 & Hf4).
        pose proof (view_after_move_current false false
                      (after (GameState.performMove sel i) (state c)) (view c))
          as (Hw1 & Hw2 & Hw3 & Hw4 & Hw5).
        apply (consistent_same_player c _ _ Hc).
        -- eapply well_stacked_towers;
             [| |apply (performMove_keeps_well_stacked _ sel i Hws)];
             reflexivity.
        -- exact Hf1.
        -- cbn. lia.
        -- exact Hf2.
        -- split; [exact Hw1|]. split; [exact Hw2|]. split; [exact Hw3|].
           cbn [state view]. cbn [autoSolving numDisks after selectTower
             modify snd]. rewrite Hw4, Hw5. fold (after (GameState.performMove sel i) (state c)).
           rewrite Hf1, Hf2. split; congruence.
        -- intros j Hj. discriminate.
      * rewrite (click_rejected c sel i) by assumption. cbn [snd].
        apply (consistent_same_player c _ _ Hc).
        -- eapply well_stacked_towers; [| |exact Hws]; reflexivity.
        -- reflexivity.
        -- exact Hmc.
        -- reflexivity.
        -- repeat split; try assumption; cbn; congruence.
        -- intros j Hj. discriminate.
  - destruct (index (towers (state c)) i) as [tw|] eqn:Hi.
    + destruct tw as [|disk rest _] using rev_ind.
      * rewrite click_empty by assumption. cbn [snd].
        apply (consistent_same_player c _ _ Hc); try reflexivity.
        -- exact Hws.
        -- exact Hmc.
        -- repeat split; try assumption; cbn; congruence.
        -- intros j Hj. cbn [state] in Hj. congruence.
      * rewrite (click_arms c i rest disk) by assumption. cbn [snd].
        apply (consistent_same_player c _ _ Hc).
        -- eapply well_stacked_towers; [| |exact Hws]; reflexivity.
        -- reflexivity.
        -- exact Hmc.
        -- reflexivity.
        -- repeat split; try assumption; cbn; congruence.
        -- intros j Hj. injection Hj as <-. split; [exact Hauto|].
           exists rest, disk. exact Hi.
    + rewrite click_outside by assumption. exact Hc.
Qed.

(** ** The solver button and the ticks, case by case *)

Lemma on_solver_mk {A} (m : M Solver.t A) s v p
  (r : outcome A) (sv' : Solver.t) :
  m (Playback.solver p) = (r, sv') ->
  on_solver m (Controller.mk s v p) =
  (r, Controller.mk s v (Playback.set_solver_of sv' p)).
Proof. intros H. unfold on_solver. cbn [player]. rewrite H. reflexivity. Qed.

Lemma stopAutoSolve_eq (c : Controller.t) (manual : bool) :
  stopAutoSolve manual c =
  (Ret tt,
   Controller.mk (after (setAutoSolving false) (state c))
     (let v := View.updateUIForSolver false (view c) in
      if manual then View.setMessage View.SolverStopped View.Normal v else v)
     (Playback.stop (player c))).
Proof. destruct c as [s v p], manual; reflexivity. Qed.

Lemma startAutoSolve_started (depth k : nat) (c : Controller.t) :
  View.getDiskCountValue (view c) = Z.of_nat (S k) -> (S k <= depth)%nat ->
  startAutoSolve depth c =
  (Ret tt,
   Controller.mk (after (setAutoSolving true) (fresh (Z.of_nat (S k))))
     (View.mk (Some (Z.of_nat (S k))) true
        (View.SolverRunning, View.Normal) 0 (2 ^ Z.of_nat (S k) - 1)
        (towers (fresh (Z.of_nat (S k)))) None)
     (Playback.startAutoPlay Playback.both
        (Playback.set_solver_of (Solver.mk (Solver.solution k 0 2 1) 0 None)
           (Playback.stop (player c))))).
Proof.
  intros Hn Hdepth. pose proof (initGame_eq c) as Hinit. cbv zeta in Hinit.
  rewrite Hn in Hinit. unfold startAutoSolve.
  rewrite (bind_ret _ _ _ _ _ Hinit).
  unfold bind at 1, on_state at 1, getNumDisks, gets. cbn [state view player
    numDisks].
  unfold bind at 1.
  erewrite on_solver_mk.
  2:{ rewrite PlaybackProps.stop_eq. cbn [Playback.solver].
      apply SolverProps.prepareSolution_enough, Hdepth. }
  unfold bind at 1, on_solver at 1, Solver.getTotalMoves, gets.
  cbn [player Playback.solver Playback.set_solver_of Solver.moves].
  pose proof (SolverProps.solution_length k 0 2 1) as Hlen.
  assert (0 < 2 ^ Z.of_nat (S k) - 1) as Hpos.
  { assert (2 ^ 1 <= 2 ^ Z.of_nat (S k))
      by (apply Z.pow_le_mono_r; lia). lia. }
  destruct (Nat.eqb_spec (length (Solver.solution k 0 2 1)) 0) as [E|_];
    [lia|].
  rewrite PlaybackProps.stop_eq. reflexivity.
Qed.

Lemma startAutoSolve_overflows (depth k : nat) (c : Controller.t) :
  View.getDiskCountValue (view c) = Z.of_nat (S k) -> (depth < S k)%nat ->
  startAutoSolve depth c =
  (Throw RangeError,
   Controller.mk (fresh (Z.of_nat (S k)))
     (View.mk (Some (Z.of_nat (S k))) false
        (View.Instructions, View.Normal) 0 (2 ^ Z.of_nat (S k) - 1)
        (towers (fresh (Z.of_nat (S k)))) None)
     (Playback.stop (player c))).
Proof.
  intros Hn Hdepth. pose proof (initGame_eq c) as Hinit. cbv zeta in Hinit.
  rewrite Hn in Hinit. unfold startAutoSolve.
  rewrite (bind_ret _ _ _ _ _ Hinit).
  unfold bind at 1, on_state at 1, getNumDisks, gets. cbn [state view player
    numDisks].
  unfold bind at 1.
  erewrite on_solver_mk.
  2:{ rewrite PlaybackProps.stop_eq. cbn [Playback.solver].
      apply SolverTraversalProps.prepareSolution_shallow, Hdepth. }
  rewrite PlaybackProps.stop_eq. reflexivity.
Qed.

Lemma tick_unregistered (c : Controller.t) (h : positive) :
  Playback.intervals (player c) !! h = None -> tick h c = (Ret tt, c).
Proof.
  intros Hh. unfold tick, bind, gets. rewrite Hh. reflexivity.
Qed.

Lemma tick_next (c : Controller.t) (h : positive) (from to : Z) :
  Playback.intervals (player c) !! h = Some Playback.both ->
  Solver.moves (Playback.solver (player c))
    !! Solver.currentMoveIndex (Playback.solver (player c))
    = Some (from, to) ->
  tick h c =
  onMove from to (Controller.mk (state c) (view c) (advanced (player c))).
Proof.
  intros Hh Hmv. destruct c as [s v p]. cbn [state view player] in *.
  unfold tick. unfold bind at 1, gets at 1. cbn [player]. rewrite Hh.
  unfold bind at 1.
  rewrite (on_solver_mk _ _ _ _ _ _
             (SolverTraversalProps.getNextMove_eq (Playback.solver p))).
  unfold Solver.move in *. rewrite Hmv. apply lookup_lt_Some in Hmv.
  rewrite (proj2 (Nat.leb_gt _ _) Hmv). reflexivity.
Qed.

Lemma onMove_accepted (c : Controller.t) (from to : Z) :
  length (towers (state c)) = 3%nat ->
  valid (verdict_of (state c) from to) = true ->
  onMove from to c =
  (Ret tt,
   Controller.mk (after (GameState.performMove from to) (state c))
     (display (after (GameState.performMove from to) (state c)) (view c))
     (player c)).
Proof.
  intros Hlen Hv. unfold onMove.
  rewrite (bind_ret _ _ _ _ _
             (performMove_accepted c from to true true true Hlen Hv)).
  reflexivity.
Qed.

Lemma onMove_rejected (c : Controller.t) (from to : Z) :
  valid (verdict_of (state c) from to) = false ->
  onMove from to c = (Ret tt, c).
Proof.
  intros Hv. unfold onMove.
  rewrite (bind_ret _ _ _ _ _
             (performMove_rejected c from to true true true Hv)).
  destruct c; reflexivity.
Qed.

Lemma onComplete_eq (c : Controller.t) :
  length (towers (state c)) = 3%nat ->
  onComplete c =
  (Ret tt,
   Controller.mk (after (setAutoSolving false) (state c))
     (View.setMessage
        (View.SolverFinished (moveCount (state c))
           (2 ^ numDisks (state c) - 1))
        View.Win
        (announce_win (after (setAutoSolving false) (state c))
           (View.updateUIForSolver false (view c))))
     (player c)).
Proof.
  intros Hlen. destruct c as [s v p]. cbn [state view player] in *.
  unfold onComplete.
  unfold bind at 1, on_state at 1, setAutoSolving at 1, modify at 1.
  cbn [state view player].
  unfold bind at 1, on_view at 1, modify at 1. cbn [state view player].
  unfold bind at 1. rewrite checkWin_eq by exact Hlen.
  reflexivity.
Qed.

Lemma tick_last (c : Controller.t) (h : positive) :
  Playback.intervals (player c) !! h = Some Playback.both ->
  (length (Solver.moves (Playback.solver (player c)))
   <= Solver.currentMoveIndex (Playback.solver (player c)))%nat ->
  tick h c =
  onComplete
    (Controller.mk (state c) (view c) (Playback.stop (player c))).
Proof.
  intros Hh Hend. destruct c as [s v p]. cbn [state view player] in *.
  unfold tick. unfold bind at 1, gets at 1. cbn [player]. rewrite Hh.
  unfold bind at 1.
  rewrite (on_solver_mk _ _ _ _ _ _
             (SolverTraversalProps.getNextMove_eq (Playback.solver p))).
  unfold Solver.move in *. rewrite (lookup_ge_None_2 _ _ Hend).
  rewrite (proj2 (Nat.leb_le _ _) Hend).
  unfold bind at 1, on_player at 1, modify at 1. cbn [state view player].
  cbn [Playback.onComplete Playback.both when].
  rewrite !PlaybackProps.stop_eq. reflexivity.
Qed.

(** ** The page stays consistent *)

Lemma running_unarmed (c : Controller.t) :
  consistent c -> autoSolving (state c) = true ->
  selectedTowerIndex (state c) = None.
Proof.
  intros (_ & _ & _ & _ & _ & Hsel) Hauto.
  destruct (selectedTowerIndex (state c)) as [i|] eqn:Hi; [|reflexivity].
  destruct (Hsel i Hi) as [Hfalse _]. congruence.
Qed.

Lemma registered_is_running (c : Controller.t) (h : positive) cb :
  consistent c -> Playback.intervals (player c) !! h = Some cb ->
  cb = Playback.both /\
  Solver.timer (Playback.solver (player c)) = Some h /\
  autoSolving (state c) = true.
Proof.
  intros (_ & _ & _ & _ & (Hauto & Hreg & Hrun) & _) Hh.
  assert (Solver.timer (Playback.solver (player c)) = Some h) as Htimer.
  { apply Hreg. rewrite Hh. eauto. }
  split; [|split; [exact Htimer|]].
  - specialize (Hrun h Htimer). congruence.
  - rewrite Hauto, Htimer. reflexivity.
Qed.

(** The solver comes to rest: [stop()] in [stopAutoSolve], or after the
    last move. *)
Lemma consistent_stopped (c : Controller.t) (v' : View.t) :
  consistent c ->
  View.towersShown v' = View.towersShown (view c) ->
  View.movesShown v' = View.movesShown (view c) ->
  View.optimalShown v' = View.optimalShown (view c) ->
  View.solverControls v' = false ->
  View.diskCountInput v' = View.diskCountInput (view c) ->
  consistent
    (Controller.mk (after (setAutoSolving false) (state c)) v'
       (Playback.stop (player c))).
Proof.
  intros Hc H1 H2 H3 H4 H5.
  pose proof Hc as (Hws & Hn & Hmc & (Hv1 & Hv2 & Hv3 & Hv4 & Hv5)
                    & (Hauto & Hreg & Hrun) & Hsel).
  split; [eapply well_stacked_towers; [| |exact Hws]; reflexivity|].
  split; [exact Hn|]. split; [exact Hmc|]. split; [|split].
  - unfold view_current, after, setAutoSolving, modify. cbn.
    repeat split; congruence.
  - cbn [state player]. split; [|split].
    + rewrite PlaybackProps.stop_eq. reflexivity.
    + intros h [cb Hcb]. cbn [player] in Hcb.
      pose proof (stop_leaves_none (player c) h Hreg) as Hnone.
      rewrite Hnone in Hcb. discriminate.
    + intros h Hh. rewrite PlaybackProps.stop_eq in Hh. discriminate.
  - intros i Hi. cbn in Hi. destruct (Hsel i Hi) as [Hfalse Hne].
    split; [reflexivity|exact Hne].
Qed.

Lemma consistent_advanced (c : Controller.t) :
  consistent c ->
  consistent (Controller.mk (state c) (view c) (advanced (player c))).
Proof.
  intros (Hws & Hn & Hmc & Hview & Hsolver & Hsel).
  split; [exact Hws|]. split; [exact Hn|]. split; [exact Hmc|].
  split; [exact Hview|]. split; [exact Hsolver|exact Hsel].
Qed.

Lemma consistent_tick (c : Controller.t) (h : positive) :
  consistent c -> consistent (snd (tick h c)).
Proof.
  intros Hc.
  destruct (Playback.intervals (player c) !! h) as [cb|] eqn:Hh.
  2:{ rewrite tick_unregistered by assumption. exact Hc. }
  destruct (registered_is_running c h cb Hc Hh) as (-> & Htimer & Hauto).
  pose proof (running_unarmed c Hc Hauto) as Hnosel.
  pose proof Hc as (Hws & _).
  destruct (Solver.moves (Playback.solver (player c))
              !! Solver.currentMoveIndex (Playback.solver (player c)))
    as [[from to]|] eqn:Hmv.
  - rewrite (tick_next c h from to Hh Hmv).
    pose proof (consistent_advanced c Hc) as Hc'.
    destruct (valid (verdict_of (state c) from to)) eqn:Hv.
    + rewrite onMove_accepted by (try assumption; apply Hws). cbn [snd].
      cbn [state view player].
      pose proof (performMove_fields (state c) from to)
        as (Hf1 & Hf2 & Hf3 & Hf4).
      pose proof Hc' as (_ & Hn & Hmc & (Hv1 & Hv2 & Hv3 & Hv4 & Hv5)
                         & Hsolver & _).
      cbn [state view player] in *.
      split; [apply performMove_keeps_well_stacked, Hws|].
      split; [cbn [state]; rewrite Hf1; exact Hn|].
      split; [cbn [state]; lia|]. split; [|split].
      * unfold view_current, display. cbn [state view]. cbn.
        repeat split; congruence.
      * destruct Hsolver as (Ha & Hreg & Hrun).
        unfold solver_exclusive. cbn [state player] in *.
        split; [rewrite Hf2; exact Ha|]. split; assumption.
      * intros i Hi. cbn [state] in Hi. congruence.
    + rewrite onMove_rejected by assumption. exact Hc'.
  - apply lookup_ge_None in Hmv.
    rewrite (tick_last c h Hh Hmv).
    rewrite onComplete_eq by (cbn [state]; apply Hws). cbn [snd state view player].
    apply (consistent_stopped c _ Hc); unfold announce_win;
      destruct (won _); reflexivity.
Qed.

Lemma start_world (p : Playback.world) (moves : list Solver.move) :
  Playback.startAutoPlay Playback.both
    (Playback.set_solver_of (Solver.mk moves 0 None) (Playback.stop p)) =
  Playback.mkWorld (Solver.mk moves 0 (Some (Playback.nextHandle p)))
    (<[Playback.nextHandle p := Playback.both]>
       (Playback.intervals (Playback.stop p)))
    (Pos.succ (Playback.nextHandle p)) (Playback.calls p).
Proof. rewrite !PlaybackProps.stop_eq. reflexivity. Qed.

Lemma consistent_solveClick (depth : nat) (c : Controller.t) :
  consistent c -> consistent (snd (solveClick depth c)).
Proof.
  intros Hc. unfold solveClick.
  unfold bind at 1, on_state at 1, isAutoSolving, gets.
  destruct c as [s v p]. cbn [state view player].
  destruct (autoSolving s) eqn:Hauto.
  - rewrite stopAutoSolve_eq. cbn [snd state view player].
    apply (consistent_stopped _ _ Hc); reflexivity.
  - pose proof Hc as (_ & _ & _ & _ & (_ & Hreg & _) & _).
    assert (exists k, View.getDiskCountValue v = Z.of_nat (S k)) as [k Hk].
    { exists (Z.to_nat (View.getDiskCountValue v) - 1)%nat.
      unfold View.getDiskCountValue. lia. }
    destruct (Nat.le_gt_cases (S k) depth) as [Hd|Hd].
    + rewrite (startAutoSolve_started depth k (Controller.mk s v p) Hk Hd).
      cbn [snd player].
      split; [eapply well_stacked_towers;
                [| |apply (well_stacked_fresh (Z.of_nat (S k)))]; reflexivity|].
      split; [cbn; unfold View.getDiskCountValue in Hk; lia|].
      split; [cbn; lia|]. split; [repeat split|]. split.
      * unfold solver_exclusive. cbn [state player]. rewrite start_world.
        cbn [Playback.solver Playback.intervals Solver.timer].
        split; [reflexivity|]. split.
        -- intros h Hh. apply lookup_insert_is_Some in Hh as [->|[_ Hh]].
           ++ reflexivity.
           ++ destruct Hh as [cb Hcb]. cbn [player] in Hreg.
              pose proof (stop_leaves_none p h Hreg) as Hnone.
              rewrite Hnone in Hcb. discriminate.
        -- intros h Hh. injection Hh as <-. apply lookup_insert_eq.
      * intros i Hi. discriminate.
    + rewrite (startAutoSolve_overflows depth k (Controller.mk s v p) Hk Hd).
      cbn [snd player].
      pose proof (consistent_initGame (Controller.mk s v p) Hreg) as Hi.
      pose proof (initGame_eq (Controller.mk s v p)) as E. cbv zeta in E.
      rewrite E in Hi. cbn [snd view player] in Hi. rewrite Hk in Hi.
      exact Hi.
Qed.

Lemma consistent_handle (depth : nat) (i : input) (c : Controller.t) :
  consistent c -> consistent (snd (handle depth i c)).
Proof.
  intros Hc. pose proof Hc as (_ & _ & _ & _ & (_ & Hreg & _) & _).
  destruct i as [index| |typed| |h]; cbn [handle].
  - apply consistent_click, Hc.
  - apply consistent_initGame, Hreg.
  - unfold bind at 1, on_view at 1, modify at 1.
    apply consistent_initGame. exact Hreg.
  - apply consistent_solveClick, Hc.
  - apply consistent_tick, Hc.
Qed.

Lemma consistent_loaded (typed : option Z) (first : positive) :
  consistent (loaded typed first).
Proof.
  apply consistent_initGame. intros h [cb Hcb]. cbn in Hcb.
  rewrite lookup_empty in Hcb. discriminate.
Qed.

Lemma consistent_handles (depth : nat) (inputs : list input)
  (c : Controller.t) :
  consistent c -> consistent (handles depth inputs c).
Proof.
  revert c. induction inputs as [|i inputs IH]; intros c Hc; [exact Hc|].
  unfold handles. cbn [foldl]. apply IH, consistent_handle, Hc.
Qed.

(** Whatever the user does after the page has loaded (clicks on towers,
    also outside 0..2, reset, a new disk count, the solver button) and
    whenever the host fires ticks, the game stays a legal one: three
    towers, strictly decreasing, holding 1..numDisks once each, with
    numDisks in 1..15 and a move count that is not negative. *)
Theorem controller_keeps_game_legal
  (depth : nat) (typed : option Z) (first : positive) (inputs : list input) :
  let c := handles depth inputs (loaded typed first) in
  well_stacked (state c) /\
  1 <= numDisks (state c) <= 15 /\
  0 <= moveCount (state c).
Proof.
  intros c.
  destruct (consistent_handles depth inputs _ (consistent_loaded typed first))
    as (Hws & Hn & Hmc & _).
  split; [exact Hws|]. split; [exact Hn|exact Hmc].
Qed.

(** After every input the page shows the game as it is: the towers drawn
    are the towers of the state, the two counters show the move count and
    2^numDisks - 1, the disk-count field shows numDisks, and the solver
    controls are in their running form exactly while the auto-play flag
    is set. *)
Theorem page_shows_current_game
  (depth : nat) (typed : option Z) (first : positive) (inputs : list input) :
  let c := handles depth inputs (loaded typed first) in
  View.towersShown (view c) = towers (state c) /\
  View.movesShown (view c) = moveCount (state c) /\
  View.optimalShown (view c) = 2 ^ numDisks (state c) - 1 /\
  getOptimalMoves (state c) = (Ret (View.optimalShown (view c)), state c) /\
  View.diskCountInput (view c) = Some (numDisks (state c)) /\
  View.solverControls (view c) = autoSolving (state c).
Proof.
  intros c.
  destruct (consistent_handles depth inputs _ (consistent_loaded typed first))
    as (_ & _ & _ & (H1 & H2 & H3 & H4 & H5) & _).
  fold c in H1, H2, H3, H4, H5.
  split; [exact H1|]. split; [exact H2|]. split; [exact H3|].
  split; [unfold getOptimalMoves, gets; rewrite H3; reflexivity|].
  split; [exact H5|exact H4].
Qed.

(** After every input: the auto-play flag is set exactly while the solver
    holds an interval; that interval is then the only one registered, so
    a tick of any other handle changes nothing; and while the flag is set
    no tower is selected and clicks on towers change nothing.  A selected
    tower always holds a disk. *)
Theorem autoplay_excludes_manual_play
  (depth : nat) (typed : option Z) (first : positive) (inputs : list input) :
  let c := handles depth inputs (loaded typed first) in
  autoSolving (state c)
    = defined (Solver.timer (Playback.solver (player c))) /\
  (forall h, Solver.timer (Playback.solver (player c)) <> Some h ->
             tick h c = (Ret tt, c)) /\
  (autoSolving (state c) = true ->
   selectedTowerIndex (state c) = None /\
   forall i, handleTowerClick i c = (Ret tt, c)) /\
  (forall i, selectedTowerIndex (state c) = Some i ->
             exists rest disk,
               index (towers (state c)) i = Some (rest ++ [disk])).
Proof.
  intros c.
  pose proof (consistent_handles depth inputs _ (consistent_loaded typed first))
    as Hc. fold c in Hc.
  pose proof Hc as (_ & _ & _ & _ & (Hauto & Hreg & Hrun) & Hsel).
  split; [exact Hauto|]. split; [|split].
  - intros h Hh. apply tick_unregistered.
    destruct (Playback.intervals (player c) !! h) eqn:E; [|reflexivity].
    exfalso. apply Hh, Hreg. rewrite E. eauto.
  - intros Ha. split; [apply running_unarmed; assumption|].
    intros i. apply click_ignored, Ha.
  - intros i Hi. apply (Hsel i Hi).
Qed.

(** ** Choosing a tower, then another *)

Lemma verdict_of_selection (s : GameState.t) (x : option Z) (src dst : Z) :
  verdict_of (after (selectTower x) s) src dst = verdict_of s src dst.
Proof. reflexivity. Qed.

Lemma performMove_selection (s : GameState.t) (x : option Z) (src dst : Z) :
  after (GameState.performMove src dst) (after (selectTower x) s) =
  after (selectTower x) (after (GameState.performMove src dst) s).
Proof.
  unfold after at 1 4.
  destruct (valid (verdict_of s src dst)) eqn:Hv.
  - destruct (performMove_valid s src dst Hv) as (r1 & d1 & t1 & Hs1 & Ht1 & ->).
    pose proof Hv as Hv'. rewrite <- (verdict_of_selection s x) in Hv'.
    destruct (performMove_valid _ src dst Hv')
      as (r2 & d2 & t2 & Hs2 & Ht2 & ->).
    cbn [towers after selectTower modify snd] in Hs2, Ht2.
    rewrite Hs1 in Hs2. injection Hs2 as Hs2.
    apply app_inj_tail in Hs2 as [<- <-].
    rewrite Ht1 in Ht2. injection Ht2 as <-. reflexivity.
  - rewrite (performMove_invalid s src dst Hv).
    rewrite (performMove_invalid (after (selectTower x) s) src dst Hv).
    reflexivity.
Qed.

(** Manual play takes two clicks.  With auto-play off and no tower
    selected, a click on a tower that holds a disk selects it and moves
    nothing.  A second click on the same tower only cancels the choice:
    the game state is as before, no move is counted.  A second click on
    another tower asks [canMove]: a valid move is made and counted once,
    an invalid one is shown as an error and changes nothing; either way
    no tower stays selected in the state.  After a move that was made the
    page still marks the source tower, as it was drawn before the choice
    was cleared. *)
Theorem two_clicks_make_one_move
  (c : Controller.t) (i : Z) (rest : list Z) (disk : Z) :
  length (towers (state c)) = 3%nat ->
  autoSolving (state c) = false ->
  selectedTowerIndex (state c) = None ->
  index (towers (state c)) i = Some (rest ++ [disk]) ->
  exists c1,
    handleTowerClick i c = (Ret tt, c1) /\
    state c1 = after (selectTower (Some i)) (state c) /\
    View.selectionShown (view c1) = Some i /\
    View.message (view c1) = (View.TowerChosen (i + 1), View.Normal) /\
    (exists c2,
        handleTowerClick i c1 = (Ret tt, c2) /\
        state c2 = state c /\
        View.selectionShown (view c2) = None) /\
    (forall j, j <> i ->
       exists c3,
         handleTowerClick j c1 = (Ret tt, c3) /\
         selectedTowerIndex (state c3) = None /\
         if valid (verdict_of (state c) i j)
         then state c3 = after (GameState.performMove i j) (state c) /\
              moveCount (state c3) = moveCount (state c) + 1 /\
              View.towersShown (view c3) = towers (state c3) /\
              View.selectionShown (view c3) = Some i
         else state c3 = state c /\
              View.message (view c3) =
                (View.Rejected (error (verdict_of (state c) i j)),
                 View.Error) /\
              View.selectionShown (view c3) = None).
Proof.
  intros Hlen Hauto Hsel Hi.
  eexists. split; [apply (click_arms c i rest disk); assumption|].
  cbn [state view]. split; [reflexivity|]. split; [reflexivity|].
  split; [reflexivity|]. split.
  - eexists. split; [apply click_same; reflexivity || assumption|].
    cbn [state view]. split; [|reflexivity].
    destruct c as [[tw nd mc sel auto] v p]. cbn in *. subst. reflexivity.
  - intros j Hj.
    destruct (valid (verdict_of (state c) i j)) eqn:Hv.
    + eexists. split.
      { apply (click_moves _ i j); cbn [state]; try assumption;
          try reflexivity; congruence. }
      cbn [state view]. split; [reflexivity|].
      rewrite performMove_selection.
      assert (after (selectTower None)
                (after (selectTower (Some i))
                   (after (GameState.performMove i j) (state c)))
              = after (GameState.performMove i j) (state c)) as Hback.
      { pose proof (performMove_fields (state c) i j) as (_ & _ & Hf3 & _).
        destruct (after (GameState.performMove i j) (state c))
          as [tw nd mc sel auto]. cbn in *. congruence. }
      split; [exact Hback|]. rewrite Hback.
      destruct (performMove_valid (state c) i j Hv)
        as (? & ? & ? & _ & _ & Hp).
      split; [unfold after; rewrite Hp; reflexivity|].
      split; [etransitivity; [apply view_after_move_current|reflexivity]|].
      unfold view_after_move, announce_win. destruct (won _); reflexivity.
    + eexists. split.
      { apply (click_rejected _ i j); cbn [state]; try assumption;
          try reflexivity; congruence. }
      cbn [state view]. split; [reflexivity|]. split; [|split; reflexivity].
      destruct c as [[tw nd mc sel auto] v p]. cbn in *. subst. reflexivity.
Qed.

Lemma two_clicks_make_one_move_witness :
  exists c1,
    handleTowerClick 0 (loaded (Some 3) 1%positive) = (Ret tt, c1) /\
    state c1 = after (selectTower (Some 0)) (state (loaded (Some 3) 1%positive)) /\
    View.selectionShown (view c1) = Some 0 /\
    View.message (view c1) = (View.TowerChosen (0 + 1), View.Normal) /\
    (exists c2,
        handleTowerClick 0 c1 = (Ret tt, c2) /\
        state c2 = state (loaded (Some 3) 1%positive) /\
        View.selectionShown (view c2) = None) /\
    (forall j, j <> 0 ->
       exists c3,
         handleTowerClick j c1 = (Ret tt, c3) /\
         selectedTowerIndex (state c3) = None /\
         if valid (verdict_of (state (loaded (Some 3) 1%positive)) 0 j)
         then state c3 =
                after (GameState.performMove 0 j)
                  (state (loaded (Some 3) 1%positive)) /\
              moveCount (state c3) =
                moveCount (state (loaded (Some 3) 1%positive)) + 1 /\
              View.towersShown (view c3) = towers (state c3) /\
              View.selectionShown (view c3) = Some 0
         else state c3 = state (loaded (Some 3) 1%positive) /\
              View.message (view c3) =
                (View.Rejected
                   (error (verdict_of (state (loaded (Some 3) 1%positive)) 0 j)),
                 View.Error) /\
              View.selectionShown (view c3) = None).
Proof.
  apply (two_clicks_make_one_move (loaded (Some 3) 1%positive) 0 [3; 2] 1);
    reflexivity.
Defined.

(** ** The solver at work *)

Lemma performMoves_snoc (moves : list (Z * Z)) (from to : Z)
  (s : GameState.t) :
  after (performMoves (moves ++ [(from, to)])) s =
  after (GameState.performMove from to) (after (performMoves moves) s).
Proof.
  revert s. induction moves as [|[a b] moves IH]; intros s.
  - cbn [app]. rewrite performMoves_cons. reflexivity.
  - cbn [app]. rewrite !performMoves_cons. apply IH.
Qed.

Lemma handles_app (depth : nat) (i1 i2 : list input) (c : Controller.t) :
  handles depth (i1 ++ i2) c = handles depth i2 (handles depth i1 c).
Proof. unfold handles. apply foldl_app. Qed.

Lemma solveClick_solving (depth k : nat) (c : Controller.t) :
  autoSolving (state c) = false ->
  View.getDiskCountValue (view c) = Z.of_nat (S k) -> (S k <= depth)%nat ->
  solveClick depth c =
  (Ret tt,
   solving (Z.of_nat (S k)) (Solver.solution k 0 2 1) (player c) 0).
Proof.
  intros Hauto Hn Hd. unfold solveClick.
  unfold bind at 1, on_state at 1, isAutoSolving, gets.
  destruct c as [s v p]. cbn [state view player] in *. rewrite Hauto.
  rewrite (startAutoSolve_started depth k (Controller.mk s v p) Hn Hd).
  cbn [player]. rewrite start_world. reflexivity.
Qed.

(** The moves for [S k] disks, played on a new game: all accepted. *)
Lemma solution_accepted (k : nat) :
  let s0 := after (setAutoSolving true) (fresh (Z.of_nat (S k))) in
  exists s',
    performMoves (Solver.solution k 0 2 1) s0 =
      (Ret (repeat true (length (Solver.solution k 0 2 1))), s') /\
    index (towers s') 2 = Some (stack (S k)) /\
    numDisks s' = Z.of_nat (S k).
Proof.
  intros s0.
  destruct (SolverProps.solution_plays k 0 2 1 s0 [] [] [])
    as (s' & Hplay & _ & Htarget & _ & Hnum); try lia; try reflexivity;
    try (intros top Htop; discriminate).
  exists s'. split; [exact Hplay|]. split; [exact Htarget|exact Hnum].
Qed.

Lemma solving_well_stacked (k j : nat) (p : Playback.world) :
  well_stacked
    (state (solving (Z.of_nat (S k)) (Solver.solution k 0 2 1) p j)).
Proof.
  cbn [solving state].
  apply (performMoves_keep_well_stacked (take j (Solver.solution k 0 2 1))).
  eapply well_stacked_towers; [| |apply (well_stacked_fresh (Z.of_nat (S k)))];
    reflexivity.
Qed.

Lemma tick_solving (k j : nat) (p : Playback.world) :
  (j < length (Solver.solution k 0 2 1))%nat ->
  tick (Playback.nextHandle p)
    (solving (Z.of_nat (S k)) (Solver.solution k 0 2 1) p j) =
  (Ret tt, solving (Z.of_nat (S k)) (Solver.solution k 0 2 1) p (S j)).
Proof.
  intros Hj.
  destruct (lookup_lt_is_Some_2 _ _ Hj) as [[from to] Hmv].
  rewrite (tick_next _ _ from to).
  2:{ cbn [solving player Playback.intervals]. apply lookup_insert_eq. }
  2:{ exact Hmv. }
  pose proof (solving_well_stacked k j p) as Hws.
  destruct (solution_accepted k) as (s' & Hplay & _).
  rewrite <- (take_drop_middle _ _ _ Hmv) in Hplay at 1.
  apply SolverProps.all_accepted_valid in Hplay.
  rewrite onMove_accepted; [|apply Hws|exact Hplay].
  unfold solving. cbn [state view player]. unfold Solver.move in *.
  rewrite (take_S_r _ _ _ Hmv).
  pose proof (performMoves_snoc (take j (Solver.solution k 0 2 1)) from to
                (snd (setAutoSolving true (fresh (Z.of_nat (S k)))))) as E.
  unfold after in E. unfold after. unfold Solver.move in *.
  rewrite E. reflexivity.
Qed.

Lemma ticks_solving (depth k j : nat) (p : Playback.world) :
  (j <= length (Solver.solution k 0 2 1))%nat ->
  handles depth (repeat (TimerTick (Playback.nextHandle p)) j)
    (solving (Z.of_nat (S k)) (Solver.solution k 0 2 1) p 0) =
  solving (Z.of_nat (S k)) (Solver.solution k 0 2 1) p j.
Proof.
  induction j as [|j IH]; intros Hj; [reflexivity|].
  cbn [repeat]. rewrite repeat_cons, handles_app, IH by lia.
  unfold handles. cbn [foldl handle]. rewrite tick_solving by lia.
  reflexivity.
Qed.

Lemma solving_fields (k j : nat) (p : Playback.world) :
  (j <= length (Solver.solution k 0 2 1))%nat ->
  let s := state (solving (Z.of_nat (S k)) (Solver.solution k 0 2 1) p j) in
  moveCount s = Z.of_nat j /\ autoSolving s = true /\
  numDisks s = Z.of_nat (S k) /\ selectedTowerIndex s = None.
Proof.
  induction j as [|j IH]; intros Hj s; [repeat split|].
  destruct IH as (Hm & Ha & Hn & Hsel); [lia|].
  destruct (lookup_lt_is_Some_2 (Solver.solution k 0 2 1) j)
    as [[from to] Hmv]; [lia|].
  destruct (solution_accepted k) as (s' & Hplay & _).
  rewrite <- (take_drop_middle _ _ _ Hmv) in Hplay at 1.
  apply SolverProps.all_accepted_valid in Hplay.
  set (sj := state (solving (Z.of_nat (S k)) (Solver.solution k 0 2 1) p j))
    in *.
  assert (valid (verdict_of sj from to) = true) as Hv by exact Hplay.
  assert (s = after (GameState.performMove from to) sj) as ->.
  { unfold s, sj, solving. cbn [state]. unfold Solver.move in *.
    rewrite (take_S_r _ _ _ Hmv).
    pose proof (performMoves_snoc (take j (Solver.solution k 0 2 1)) from to
                  (snd (setAutoSolving true (fresh (Z.of_nat (S k)))))) as E.
    unfold after in *. unfold Solver.move in *. exact E. }
  destruct (performMove_valid sj from to Hv) as (? & ? & ? & _ & _ & Hp).
  unfold after. rewrite Hp.
  cbn [snd moveCount autoSolving numDisks selectedTowerIndex].
  repeat split; try assumption. lia.
Qed.

Lemma reached_disk_count (c : Controller.t) :
  consistent c ->
  exists k,
    numDisks (state c) = Z.of_nat (S k) /\ (S k <= 15)%nat /\
    View.getDiskCountValue (view c) = Z.of_nat (S k).
Proof.
  intros (_ & Hn & _ & (_ & _ & _ & _ & Hv5) & _).
  exists (Z.to_nat (numDisks (state c)) - 1)%nat.
  split; [lia|]. split; [lia|].
  unfold View.getDiskCountValue. rewrite Hv5. lia.
Qed.

Lemma solution_count (k : nat) :
  Z.to_nat (2 ^ Z.of_nat (S k)) = S (length (Solver.solution k 0 2 1)).
Proof. pose proof (SolverProps.solution_length k 0 2 1). lia. Qed.

(** From any state of the page with auto-play off: a click on the solver
    button followed by 2^n ticks of the solver's interval (n being the
    current disk count, the stack allowing 15 nested calls) ends with the
    game won in 2^n - 1 counted moves, all disks on tower 2 and drawn
    there, the auto-play flag and the solver controls off, the solver
    reset, and the message that the solver finished in [moveCount] of
    [optimal] moves, both 2^n - 1. *)
Theorem auto_solve_wins_on_screen
  (depth : nat) (typed : option Z) (first : positive) (inputs : list input) :
  (15 <= depth)%nat ->
  let c := handles depth inputs (loaded typed first) in
  autoSolving (state c) = false ->
  let n := numDisks (state c) in
  let c' :=
    handles depth
      (SolveClick
         :: repeat (TimerTick (Playback.nextHandle (player c)))
              (Z.to_nat (2 ^ n))) c in
  isGameWon (state c') = (Ret true, state c') /\
  towers (state c') = [[]; []; reverse (seqZ 1 n)] /\
  numDisks (state c') = n /\
  moveCount (state c') = 2 ^ n - 1 /\
  autoSolving (state c') = false /\
  View.message (view c') =
    (View.SolverFinished (2 ^ n - 1) (2 ^ n - 1), View.Win) /\
  View.towersShown (view c') = towers (state c') /\
  View.solverControls (view c') = false /\
  Playback.solver (player c') = Solver.mk [] 0 None.
Proof.
  intros Hdepth c Hauto n c'.
  pose proof (consistent_handles depth inputs _ (consistent_loaded typed first))
    as Hc. fold c in Hc.
  destruct (reached_disk_count c Hc) as (k & Hk & Hk15 & Hview).
  set (len := length (Solver.solution k 0 2 1)).
  set (sl := solving (Z.of_nat (S k)) (Solver.solution k 0 2 1) (player c) len).
  pose proof (solving_well_stacked k len (player c)) as Hws. fold sl in Hws.
  destruct (solving_fields k len (player c)) as (Hm & Ha & Hn & Hsel);
    [unfold len; lia|]. fold sl in Hm, Ha, Hn, Hsel.
  assert (c' = snd (onComplete
                      (Controller.mk (state sl) (view sl)
                         (Playback.stop (player sl))))) as Hc'.
  { unfold c', n. rewrite Hk, solution_count. fold len.
    change (SolveClick :: repeat (TimerTick (Playback.nextHandle (player c)))
                            (S len))
      with ([SolveClick]
              ++ repeat (TimerTick (Playback.nextHandle (player c))) (S len)).
    cbn [repeat]. rewrite repeat_cons, !handles_app.
    unfold handles at 3. cbn [foldl handle].
    rewrite (solveClick_solving depth k c Hauto Hview) by lia. cbn [snd].
    rewrite ticks_solving by (unfold len; lia). fold sl.
    unfold handles. cbn [foldl handle].
    rewrite tick_last; [reflexivity| |].
    - unfold sl. cbn [solving player Playback.intervals].
      apply lookup_insert_eq.
    - unfold sl. cbn [solving player Playback.solver Solver.moves
        Solver.currentMoveIndex]. unfold len. lia. }
  rewrite onComplete_eq in Hc' by (cbn [state]; apply Hws).
  cbn [snd state view player] in Hc'. rewrite Hc'. cbn [state view player].
  unfold n. rewrite Hk. clear Hc' c' n.
  assert (towers (state sl) = [[]; []; reverse (seqZ 1 (Z.of_nat (S k)))])
    as Htw.
  { rewrite <- Hn. apply GamePlayProps.won_towers; [exact Hws|lia|].
    destruct (solution_accepted k) as (s' & Hplay & Htarget & Hnum).
    assert (state sl = s') as ->.
    { unfold sl. cbn [solving state]. unfold len. rewrite take_ge by lia.
      unfold after in Hplay. rewrite Hplay. reflexivity. }
    unfold isGameWon, bind, gets, ret. rewrite Htarget, Hnum.
    unfold stack. rewrite length_reverse, length_seqZ.
    destruct (Z.eqb_spec (Z.of_nat (Z.to_nat (Z.of_nat (S k))))
                (Z.of_nat (S k))); [reflexivity|lia]. }
  pose proof (SolverProps.solution_length k 0 2 1) as Hlen. fold len in Hlen.
  assert (won (after (setAutoSolving false) (state sl)) = true) as Hwon.
  { unfold won. cbn [after setAutoSolving modify snd towers numDisks].
    rewrite Htw, Hn. cbn [index]. simpl.
    rewrite length_reverse, length_seqZ, Nat2Z.id. apply Z.eqb_refl. }
  split.
  { rewrite isGameWon_eq by (cbn; apply Hws). rewrite Hwon. reflexivity. }
  split; [exact Htw|]. split; [exact Hn|].
  split; [change (moveCount (state sl) = 2 ^ Z.of_nat (S k) - 1); congruence|].
  split; [reflexivity|]. split.
  { cbn [View.message View.setMessage]. rewrite Hm, Hn, Hlen. reflexivity. }
  split; [unfold announce_win; rewrite Hwon; reflexivity|].
  split; [unfold announce_win; rewrite Hwon; reflexivity|].
  rewrite PlaybackProps.stop_eq. reflexivity.
Qed.

Lemma auto_solve_wins_on_screen_witness :
  let c := handles 15 [] (loaded (Some 2) 1%positive) in
  let n := numDisks (state c) in
  let c' :=
    handles 15
      (SolveClick
         :: repeat (TimerTick (Playback.nextHandle (player c)))
              (Z.to_nat (2 ^ n))) c in
  isGameWon (state c') = (Ret true, state c') /\
  towers (state c') = [[]; []; reverse (seqZ 1 n)] /\
  numDisks (state c') = n /\
  moveCount (state c') = 2 ^ n - 1 /\
  autoSolving (state c') = false /\
  View.message (view c') =
    (View.SolverFinished (2 ^ n - 1) (2 ^ n - 1), View.Win) /\
  View.towersShown (view c') = towers (state c') /\
  View.solverControls (view c') = false /\
  Playback.solver (player c') = Solver.mk [] 0 None.
Proof.
  apply (auto_solve_wins_on_screen 15 (Some 2) 1%positive []);
    [lia|reflexivity].
Defined.

(** While the solver is at work, a second click on the solver button
    stops it: after j ticks (j not more than the 2^n - 1 moves) exactly j
    moves are counted, the auto-play flag and the solver controls are off,
    the solver is reset, the page says that the solver was stopped, and no
    tick changes anything any more; the towers are as the j moves left
    them, for the user to go on by hand. *)
Theorem stopping_auto_solve_keeps_moves
  (depth : nat) (typed : option Z) (first : positive) (inputs : list input)
  (j : nat) :
  (15 <= depth)%nat ->
  let c := handles depth inputs (loaded typed first) in
  autoSolving (state c) = false ->
  Z.of_nat j <= 2 ^ numDisks (state c) - 1 ->
  let c' :=
    handles depth
      (SolveClick
         :: repeat (TimerTick (Playback.nextHandle (player c))) j
         ++ [SolveClick]) c in
  moveCount (state c') = Z.of_nat j /\
  numDisks (state c') = numDisks (state c) /\
  autoSolving (state c') = false /\
  selectedTowerIndex (state c') = None /\
  well_stacked (state c') /\
  View.towersShown (view c') = towers (state c') /\
  View.message (view c') = (View.SolverStopped, View.Normal) /\
  View.solverControls (view c') = false /\
  Playback.solver (player c') = Solver.mk [] 0 None /\
  (forall h, tick h c' = (Ret tt, c')).
Proof.
  intros Hdepth c Hauto Hj c'.
  pose proof (consistent_handles depth inputs _ (consistent_loaded typed first))
    as Hc. fold c in Hc.
  destruct (reached_disk_count c Hc) as (k & Hk & Hk15 & Hview).
  pose proof (SolverProps.solution_length k 0 2 1) as Hlen.
  assert (j <= length (Solver.solution k 0 2 1))%nat as Hj'.
  { rewrite Hk in Hj. lia. }
  set (sj := solving (Z.of_nat (S k)) (Solver.solution k 0 2 1) (player c) j).
  pose proof (solving_well_stacked k j (player c)) as Hws. fold sj in Hws.
  destruct (solving_fields k j (player c) Hj') as (Hm & Ha & Hn & Hsel).
  fold sj in Hm, Ha, Hn, Hsel.
  assert (c' = snd (stopAutoSolve true sj)) as Hc'.
  { unfold c'.
    change (SolveClick :: repeat (TimerTick (Playback.nextHandle (player c))) j
              ++ [SolveClick])
      with ([SolveClick]
              ++ repeat (TimerTick (Playback.nextHandle (player c))) j
              ++ [SolveClick]).
    rewrite !handles_app. unfold handles at 3. cbn [foldl handle].
    rewrite (solveClick_solving depth k c Hauto Hview) by lia. cbn [snd].
    rewrite ticks_solving by exact Hj'. fold sj.
    unfold handles. cbn [foldl handle]. unfold solveClick.
    unfold bind at 1, on_state at 1, isAutoSolving, gets.
    destruct sj as [s v p]. cbn [state] in *. rewrite Ha. reflexivity. }
  assert (consistent c') as Hcc.
  { unfold c', c. rewrite <- handles_app. apply consistent_handles.
    apply consistent_loaded. }
  rewrite stopAutoSolve_eq in Hc'. cbn [snd] in Hc'.
  pose proof Hcc as (_ & _ & _ & _ & (Hx1 & Hx2 & Hx3) & _).
  rewrite Hc' in *. cbn [state view player] in *.
  split; [exact Hm|]. split; [rewrite Hk; exact Hn|].
  split; [reflexivity|]. split; [exact Hsel|].
  split; [eapply well_stacked_towers; [| |exact Hws]; reflexivity|].
  split; [reflexivity|]. split; [reflexivity|]. split; [reflexivity|].
  split; [rewrite PlaybackProps.stop_eq; reflexivity|].
  intros h. apply tick_unregistered. cbn [player].
  destruct (Playback.intervals (Playback.stop (player sj)) !! h) eqn:E;
    [|reflexivity].
  exfalso. assert (is_Some (Playback.intervals (Playback.stop (player sj)) !! h))
    as Hs by (rewrite E; eauto).
  apply Hx2 in Hs. rewrite PlaybackProps.stop_eq in Hs. discriminate.
Qed.

Lemma stopping_auto_solve_keeps_moves_witness :
  let c := handles 15 [] (loaded (Some 3) 1%positive) in
  let c' :=
    handles 15
      (SolveClick
         :: repeat (TimerTick (Playback.nextHandle (player c))) 4
         ++ [SolveClick]) c in
  moveCount (state c') = Z.of_nat 4 /\
  numDisks (state c') = numDisks (state c) /\
  autoSolving (state c') = false /\
  selectedTowerIndex (state c') = None /\
  well_stacked (state c') /\
  View.towersShown (view c') = towers (state c') /\
  View.message (view c') = (View.SolverStopped, View.Normal) /\
  View.solverControls (view c') = false /\
  Playback.solver (player c') = Solver.mk [] 0 None /\
  (forall h, tick h c' = (Ret tt, c')).
Proof.
  apply (stopping_auto_solve_keeps_moves 15 (Some 3) 1%positive [] 4);
    [lia|reflexivity|vm_compute; discriminate].
Defined.

(** A new game from any content of the disk-count field: [initGame] (the
    reset button, a change of the field, the start of the solver) never
    rejects it.  A number within 1..15 is taken as it is, a smaller one
    gives 1 disk, a larger one 15, and a text that is no number gives 3.
    The game starts with all disks on tower 0, no move counted, nothing
    selected, auto-play off and the solver stopped. *)
Theorem new_game_from_any_input (c : Controller.t) (typed : option Z) :
  let n := Z.max 1 (Z.min 15 (match typed with Some v => v | None => 3 end)) in
  exists c',
    handle 0 (DiskCountChange typed) c = (Ret tt, c') /\
    state c' = fresh n /\
    1 <= n <= 15 /\
    (typed = None -> n = 3) /\
    (forall v, typed = Some v ->
       (1 <= v <= 15 -> n = v) /\ (v < 1 -> n = 1) /\ (15 < v -> n = 15)) /\
    View.diskCountInput (view c') = Some n /\
    View.towersShown (view c') = towers (fresh n) /\
    View.message (view c') = (View.Instructions, View.Normal) /\
    player c' = Playback.stop (player c) /\
    Playback.solver (player c') = Solver.mk [] 0 None /\
    initGame c' = (Ret tt, c').
Proof.
  intros n. cbn [handle].
  unfold bind at 1, on_view at 1, modify at 1.
  set (c0 := Controller.mk (state c) _ (player c)).
  pose proof (initGame_eq c0) as E. cbv zeta in E.
  change (View.getDiskCountValue (view c0)) with n in E.
  eexists. split; [exact E|]. cbn [state view player].
  split; [reflexivity|]. split; [lia|]. split; [intros ->; reflexivity|].
  split; [intros v ->; unfold n; lia|].
  split; [reflexivity|]. split; [reflexivity|]. split; [reflexivity|].
  split; [reflexivity|]. split; [rewrite PlaybackProps.stop_eq; reflexivity|].
  pose proof (initGame_eq
                (Controller.mk (fresh n)
                   (View.mk (Some n) false (View.Instructions, View.Normal) 0
                      (2 ^ n - 1) (towers (fresh n)) None)
                   (Playback.stop (player c)))) as E'.
  cbv zeta in E'. cbn [view player] in E'.
  assert (View.getDiskCountValue
            (View.mk (Some n) false (View.Instructions, View.Normal) 0
               (2 ^ n - 1) (towers (fresh n)) None) = n) as Hn.
  { unfold View.getDiskCountValue. cbn. lia. }
  rewrite Hn in E'. refine (eq_trans E' _).
  rewrite !PlaybackProps.stop_eq. reflexivity.
Qed.

End ControllerProps.
